(** * parse_cutadapt_adapters.py: a shallow embedding and its properties

    The script reads a multi-sample Cutadapt log, cuts it into sample blocks
    with one regular expression, extracts adapter sections from each block
    with a second one, sums the trimmed counts per adapter sequence, and
    prints the table as CSV.

    Text is modelled as [list ascii]: a Python [str] whose code points are
    all below 256.  On that range [\d] is ['0'..'9'] and [\s] is the set
    accepted by [str.isspace].  The regular expressions are embedded with
    backtracking combinators in continuation-passing style, so that every
    pattern below is written piece by piece as it stands in the source.
    What can raise in Python ([int], indexing a dictionary, opening the
    file, writing an integer) returns an [option] here; the bound of 4300
    digits that CPython puts on [int] and [str] is part of the model.  Of
    pandas the model keeps what the script uses: the columns and cells of
    a frame built from a list of dictionaries, and the records that
    [to_csv] hands to the CSV writer.

    The file has these parts: the program, the vocabulary in which its
    properties are stated, the lemmas, and the properties themselves. *)

From Stdlib Require Import Ascii String ZArith Lia.
From stdpp Require Import base option list gmap sorting.

Local Open Scope Z_scope.

(** ** Text *)

Abbreviation str := (list ascii).

(** String literals of the source are written [$"..."]. *)
Notation "$ s" := (list_ascii_of_string s) (at level 1, format "$ s").

Definition code (c : ascii) : N := N_of_ascii c.

(** [\d] on code points below 256. *)
Definition is_digit (c : ascii) : bool :=
  (48 <=? code c)%N && (code c <=? 57)%N.

(** [\s], and the characters removed by [str.strip()]: TAB, LF, VT, FF, CR,
    FS, GS, RS, US, space, NEL (0x85) and no-break space (0xA0). *)
Definition is_space (c : ascii) : bool :=
  ((9 <=? code c)%N && (code c <=? 13)%N)
  || ((28 <=? code c)%N && (code c <=? 32)%N)
  || (code c =? 133)%N || (code c =? 160)%N.

(** [[^;]] *)
Definition not_semicolon (c : ascii) : bool := negb (code c =? 59)%N.

Definition newline : ascii := ascii_of_N 10.

(** [str.lower()] on code points below 256: [A-Z] and the Latin-1 capitals
    0xC0..0xDE other than the multiplication sign 0xD7. *)
Definition lower_char (c : ascii) : ascii :=
  if ((65 <=? code c)%N && (code c <=? 90)%N)
     || ((192 <=? code c)%N && (code c <=? 222)%N && negb (code c =? 215)%N)
  then ascii_of_N (code c + 32) else c.

Definition lower (s : str) : str := map lower_char s.

(** [str.strip()] *)
Fixpoint lstrip (s : str) : str :=
  match s with
  | c :: s' => if is_space c then lstrip s' else s
  | [] => []
  end.

Definition rstrip (s : str) : str := rev (lstrip (rev s)).

Definition strip (s : str) : str := rstrip (lstrip s).

(** The bound of CPython on the conversions between [int] and [str]
    ([sys.int_max_str_digits], 4300 unless the interpreter is told
    otherwise; in version 3.11 and later, and in the security releases
    3.7.14, 3.8.14, 3.9.14 and 3.10.7). *)
Definition max_str_digits : Z := 4300.

(** [int(s)] for a string of decimal digits.  Python raises [ValueError] on
    the empty string and on a character that is no digit, sign, underscore
    or blank; the model reports every string that is not a non-empty run of
    digits as an error ([None]).  The script applies [int] to a [\d+]
    capture only.  A run of more than 4300 digits, zeros ahead of the
    number counted, raises [ValueError] as well.  The value itself is an
    unbounded integer. *)
Definition digit_value (c : ascii) : Z := Z.of_N (code c) - 48.

Definition int (s : str) : option Z :=
  match s with
  | [] => None
  | _ => if forallb is_digit s && (Z.of_nat (length s) <=? max_str_digits)
         then Some (fold_left (λ acc c, 10 * acc + digit_value c) s 0)
         else None
  end.

(** [str(z)] for an integer [z] raises [ValueError] when [z] has more than
    4300 digits. *)
Definition str_limit : Z := 10 ^ max_str_digits.

Definition str_ok (z : Z) : bool := Z.abs z <? str_limit.

(** Python compares strings code point by code point. *)
Fixpoint str_compare (a b : str) : comparison :=
  match a, b with
  | [], [] => Eq
  | [], _ :: _ => Lt
  | _ :: _, [] => Gt
  | x :: a', y :: b' =>
      match N.compare (code x) (code y) with
      | Eq => str_compare a' b'
      | c => c
      end
  end.

Definition str_le (a b : str) : Prop := str_compare a b ≠ Gt.
Definition str_lt (a b : str) : Prop := str_compare a b = Lt.

Global Instance str_le_dec : RelDecision str_le.
Proof. intros a b. unfold str_le. apply _. Defined.

(** ** The regular-expression engine

    A pattern is a function from its continuation to a matcher on the
    remaining text.  [None] means that this path failed, and the caller
    tries its next alternative: that is the backtracking of Python's [re]. *)

Module Re.
Section Engine.
Context {R : Type}.

Definition cont := str → option R.

Fixpoint strip_prefix (l s : str) : option str :=
  match l, s with
  | [], _ => Some s
  | a :: l', c :: s' => if decide (a = c) then strip_prefix l' s' else None
  | _ :: _, [] => None
  end.

(** a literal *)
Definition lit (l : str) (k : cont) : cont := λ s,
  match strip_prefix l s with
  | Some r => k r
  | None => None
  end.

(** [.*?] under [re.DOTALL]: the shortest skip first *)
Fixpoint lazy_dot (k : cont) (s : str) : option R :=
  match k s with
  | Some r => Some r
  | None => match s with
            | [] => None
            | _ :: s' => lazy_dot k s'
            end
  end.

(** [P*], greedy: the longest run first, then shorter ones *)
Fixpoint star (P : ascii → bool) (k : cont) (s : str) : option R :=
  match s with
  | c :: s' =>
      if P c then match star P k s' with
                  | Some r => Some r
                  | None => k s
                  end
      else k s
  | [] => k s
  end.

(** [P+], greedy *)
Definition plus (P : ascii → bool) (k : cont) : cont := λ s,
  match s with
  | c :: s' => if P c then star P k s' else None
  | [] => None
  end.

(** [A|B] *)
Definition alt (m1 m2 : cont → cont) (k : cont) : cont := λ s,
  match m1 k s with
  | Some r => Some r
  | None => m2 k s
  end.

(** a capturing group: the text between where the group starts and where
    its body hands over to the continuation *)
Definition group (m : cont → cont) (k : str → cont) : cont := λ s,
  m (λ r, k (take (length s - length r) s) r) s.

(** [$] without [re.MULTILINE]: the end of the text, or just before a
    newline that ends the text *)
Definition dollar (k : cont) : cont := λ s,
  match s with
  | [] => k s
  | [c] => if decide (c = newline) then k s else None
  | _ => None
  end.
End Engine.

(** [(?=...)]: the body is matched, nothing is consumed *)
Definition lookahead {R} (m : @cont unit → @cont unit) (k : @cont R) : @cont R :=
  λ s, match m (λ _, Some ()) s with
       | Some _ => k s
       | None => None
       end.

(** A compiled pattern hands its groups and the text after the match to
    its caller. *)
Definition pattern (G : Type) := (G → @cont (G * str)) → @cont (G * str).

Definition match_at {G} (re : pattern G) (s : str) : option (G * str) :=
  re (λ g r, Some (g, r)) s.

(** [pattern.search(s)]: the groups of the leftmost match *)
Fixpoint search {G} (re : pattern G) (s : str) : option G :=
  match match_at re s with
  | Some (g, _) => Some g
  | None => match s with
            | [] => None
            | _ :: s' => search re s'
            end
  end.

(** [re.findall]: the groups of all matches, left to right, without
    overlap.  [skip] counts the characters of the last match that lie
    ahead of the scanning position. *)
Fixpoint findall_from {G} (re : pattern G) (skip : nat) (s : str) : list G :=
  match s with
  | [] => match skip, match_at re [] with
          | O, Some (g, _) => [g]
          | _, _ => []
          end
  | _ :: s' =>
      match skip with
      | S n => findall_from re n s'
      | O => match match_at re s with
             | Some (g, r) => g :: findall_from re (length s' - length r) s'
             | None => findall_from re 0 s'
             end
      end
  end.

Definition findall {G} (re : pattern G) (s : str) : list G :=
  findall_from re 0 s.
End Re.

Import Re.

(** ** The three patterns of the script *)

(** [m >> k]: the piece [m] of a pattern, followed by the rest [k]. *)
Notation "m >> k" := (m k) (at level 65, right associativity, only parsing).

Definition header_lit : str := $"Command line parameters:".

(** [(Command line parameters:.*?RAT\d+.*?)(?=Command line parameters:|$)] *)
Definition sample_split_regex : pattern str := λ k,
  group (λ k1, lit header_lit >> lazy_dot >> lit $"RAT" >> plus is_digit >>
               lazy_dot >> k1)
        (λ g1, lookahead (alt (lit header_lit) dollar) >> k g1).

(** [(RAT\d+)] *)
Definition sample_name_regex : pattern str := λ k,
  group (λ k1, lit $"RAT" >> plus is_digit >> k1) k.

(** [===\s+(First|Second)\s+read:\s+Adapter\s+(\d+)\s+===.*?]
    [Sequence:\s*([^;]+);.*?]
    [Trimmed:\s+(\d+)\s+times] *)
Definition adapter_block_regex : pattern (str * str * str * str) := λ k,
  lit $"===" >> plus is_space >>
  group (alt (lit $"First") (lit $"Second")) (λ g1,
  plus is_space >> lit $"read:" >> plus is_space >> lit $"Adapter" >>
  plus is_space >> group (plus is_digit) (λ g2,
  plus is_space >> lit $"===" >> lazy_dot >>
  lit $"Sequence:" >> star is_space >> group (plus not_semicolon) (λ g3,
  lit $";" >> lazy_dot >>
  lit $"Trimmed:" >> plus is_space >> group (plus is_digit) (λ g4,
  plus is_space >> lit $"times" >> k (g1, g2, g3, g4))))).

Definition sample_blocks (full_log_text : str) : list str :=
  findall sample_split_regex full_log_text.

(** ** Aggregation and row emission *)

(** The inner dictionary [{"read1": _, "read2": _}]. *)
Record counts := Counts { read1 : Z; read2 : Z }.

(** One row dictionary of lines 96-102 and 108-114, by column. *)
Record OutputRow := Row {
  sample_name : str;
  adapter_sequence : str;
  trimmed_read1 : Z;
  trimmed_read2 : Z;
  total_trimmed : Z
}.

Global Instance counts_eq_dec : EqDecision counts.
Proof. solve_decision. Defined.
Global Instance OutputRow_eq_dec : EqDecision OutputRow.
Proof. solve_decision. Defined.

(** A [for] loop whose body may raise. *)
Fixpoint for_each {A S} (body : S → A → option S) (st : S) (l : list A)
  : option S :=
  match l with
  | [] => Some st
  | x :: l' => st' ← body st x; for_each body st' l'
  end.

(** Lines 73-84: the body of the loop over the adapter matches.  Indexing
    [adapter_data[adapter_seq]] raises [KeyError] on a missing key. *)
Definition accumulate (adapter_data : gmap str counts)
    (m : str * str * str * str) : option (gmap str counts) :=
  let '(which_read, _, g3, g4) := m in
  let adapter_seq := strip g3 in
  trimmed_count ← int g4;
  let adapter_data :=
    match adapter_data !! adapter_seq with
    | None => <[adapter_seq := Counts 0 0]> adapter_data
    | Some _ => adapter_data
    end in
  c ← adapter_data !! adapter_seq;
  if decide (lower which_read = $"first")
  then Some (<[adapter_seq := Counts (read1 c + trimmed_count) (read2 c)]>
               adapter_data)
  else Some (<[adapter_seq := Counts (read1 c) (read2 c + trimmed_count)]>
               adapter_data).

(** [sorted(adapter_data.keys())].  The keys of a dictionary are distinct,
    so the sorted list does not depend on the order in which they are
    handed to the sort. *)
Definition sorted (l : list str) : list str := merge_sort str_le l.

Definition keys (adapter_data : gmap str counts) : list str :=
  (map_to_list adapter_data).*1.

(** Lines 93-104: the body of the loop over the sorted sequences, on the
    state [(rows, total_read1, total_read2)]. *)
Definition emit (name : str) (adapter_data : gmap str counts)
    (st : list OutputRow * Z * Z) (seq : str)
  : option (list OutputRow * Z * Z) :=
  let '(rows, total_read1, total_read2) := st in
  c ← adapter_data !! seq;
  let r1 := read1 c in
  let r2 := read2 c in
  Some (rows ++ [Row name seq r1 r2 (r1 + r2)],
        total_read1 + r1, total_read2 + r2).

(** Lines 61-114: the body of the loop over the sample blocks. *)
Definition process_block (rows : list OutputRow) (block : str)
  : option (list OutputRow) :=
  match search sample_name_regex block with
  | None => Some rows
  | Some name =>
      adapter_data ← for_each accumulate ∅ (findall adapter_block_regex block);
      let sorted_sequences := sorted (keys adapter_data) in
      '(rows, total_read1, total_read2) ←
        for_each (emit name adapter_data) (rows, 0, 0) sorted_sequences;
      match sorted_sequences with
      | [] => Some rows
      | _ :: _ =>
          Some (rows ++ [Row name $"TOTAL" total_read1 total_read2
                             (total_read1 + total_read2)])
      end
  end.

(** Lines 28-115: the list [rows] when the function reaches its [return];
    [None] when an exception escapes. *)
Definition parse_rows (full_log_text : str) : option (list OutputRow) :=
  for_each process_block [] (sample_blocks full_log_text).

(** ** The table and the command line *)

Inductive cell := CStr (s : str) | CInt (z : Z).

(** The dictionary literal of a row, in the order of its keys. *)
Definition row_dict (r : OutputRow) : list (str * cell) :=
  [ ($"Sample Name", CStr (sample_name r));
    ($"Adapter Sequence", CStr (adapter_sequence r));
    ($"Trimmed (Read 1)", CInt (trimmed_read1 r));
    ($"Trimmed (Read 2)", CInt (trimmed_read2 r));
    ($"Total Trimmed", CInt (total_trimmed r)) ].

(** [pd.DataFrame(rows)] for a list of dictionaries: the columns are the
    keys met in the rows, in order of first appearance; a key that a row
    lacks leaves its cell empty. *)
Record DataFrame := Frame {
  columns : list str;
  values : list (list (option cell))
}.

Fixpoint dict_get (d : list (str * cell)) (key : str) : option cell :=
  match d with
  | [] => None
  | (k, v) :: d' => if decide (k = key) then Some v else dict_get d' key
  end.

Definition add_keys (cols : list str) (d : list (str * cell)) : list str :=
  fold_left (λ cols key, if decide (key ∈ cols) then cols else cols ++ [key])
            (d.*1) cols.

Definition make_frame (dicts : list (list (str * cell))) : DataFrame :=
  let cols := fold_left add_keys dicts [] in
  Frame cols (map (λ d, map (dict_get d) cols) dicts).

Definition parse_cutadapt_adapters (full_log_text : str) : option DataFrame :=
  rows ← parse_rows full_log_text;
  Some (make_frame (map row_dict rows)).

(** A field as the CSV writer takes it: a text as it is, an empty cell as
    the empty text, an integer in full.  An integer within 64 bits is an
    [int64] of the frame; a larger one is kept as a Python object and goes
    through [str], which raises on more than 4300 digits. *)
Definition csv_field (c : option cell) : option cell :=
  match c with
  | Some (CStr s) => Some (CStr s)
  | Some (CInt z) => if str_ok z then Some (CInt z) else None
  | None => Some (CStr [])
  end.

(** [df.to_csv(index=False)] as the records handed to the CSV writer: the
    header record, then one record per row; [None] when the writer
    raises.  The quoting of a field is the writer's business. *)
Definition to_csv (df : DataFrame) : option (list (list cell)) :=
  body ← mapM (mapM csv_field) (values df);
  Some (map CStr (columns df) :: body).

(** What a run of the script leaves behind. *)
Inductive outcome :=
  | Usage (message : str)          (* [sys.exit(1)] after the usage line *)
  | Uncaught                       (* an exception ended the process *)
  | Printed (csv : list (list cell)).  (* [main] returned *)

Definition exit_status (o : outcome) : Z :=
  match o with
  | Printed _ => 0
  | _ => 1
  end.

(** [main()], given [sys.argv] and the file system as a partial function
    from paths to file contents. *)
Definition main (argv : list str) (read_text : str → option str) : outcome :=
  match argv with
  | [] => Uncaught                 (* [sys.argv[0]] raises [IndexError] *)
  | [prog] => Usage ($"Usage: " ++ prog ++ $" <cutadapt_log_file>")
  | _ :: logfile :: _ =>
      match read_text logfile with
      | None => Uncaught
      | Some big_log_text =>
          match parse_cutadapt_adapters big_log_text with
          | None => Uncaught
          | Some df =>
              match to_csv df with
              | None => Uncaught
              | Some csv => Printed csv
              end
          end
      end
  end.

(** * The vocabulary of the properties *)

(** ** Runs and shapes *)

Definition all (P : ascii → bool) (a : str) : Prop :=
  Forall (λ c, P c = true) a.

(** The longest run of characters in a class, and what follows it. *)
Fixpoint run (P : ascii → bool) (s : str) : str :=
  match s with
  | c :: s' => if P c then c :: run P s' else []
  | [] => []
  end.

Fixpoint after_run (P : ascii → bool) (s : str) : str :=
  match s with
  | c :: s' => if P c then after_run P s' else s
  | [] => []
  end.

(** A piece [m] consumes texts of shape [Sh]. *)
Definition consumes {R} (m : @cont R → @cont R) (Sh : str → Prop) : Prop :=
  ∀ k s x, m k s = Some x → ∃ a r, s = a ++ r ∧ Sh a ∧ k r = Some x.

(** Every match of the pattern ends inside the text it started in, and is
    not empty.  All three patterns of the script are such. *)
Definition consuming {G} (re : pattern G) : Prop :=
  ∀ s g r, match_at re s = Some (g, r) → ∃ a, a ≠ [] ∧ s = a ++ r.

(** ** Sample blocks *)

(** A sample token [RAT\d+] starts here. *)
Definition token_at (t : str) : Prop :=
  ∃ d r, t = $"RAT" ++ d :: r ∧ is_digit d = true.

(** The look-ahead [(?=Command line parameters:|$)] holds here. *)
Definition boundary (r : str) : Prop :=
  (∃ r', r = header_lit ++ r') ∨ r = [] ∨ r = [newline].

Definition no_digit_ahead (r : str) : Prop :=
  match r with
  | c :: _ => is_digit c = false
  | [] => True
  end.

(** [b] is the block that the pattern matches in the text [b ++ post]: the
    header, the text [x] up to the first sample token, the token with all
    its digits [ds], and the text [y] up to the nearest boundary. *)
Record is_block (b post x ds y : str) : Prop := Is_block {
  blk_text : b = header_lit ++ x ++ $"RAT" ++ ds ++ y;
  blk_first : ∀ x1 x2, x = x1 ++ x2 → x2 ≠ [] →
                ¬ token_at (x2 ++ $"RAT" ++ ds ++ y ++ post);
  blk_digits : ds ≠ [] ∧ all is_digit ds;
  blk_longest : no_digit_ahead (y ++ post);
  blk_boundary : boundary post;
  blk_nearest : ∀ y1 y2, y = y1 ++ y2 → y2 ≠ [] → ¬ boundary (y2 ++ post)
}.

(** The end of [sample_split_regex]: the look-ahead, then the hand-over of
    group 1, which is the text consumed so far. *)
Definition split_end (s : str) : @cont (str * str) := λ r,
  lookahead (alt (lit header_lit) dollar)
            (λ r', Some (take (length s - length r) s, r')) r.

(** A text is a self-contained sample block when the segmentation pattern,
    put at its first character, matches all of it; a newline that ends the
    text stays outside of the match, as it does at the end of a log. *)
Definition self_contained (A : str) : Prop :=
  ∃ b post, A = b ++ post ∧ (post = [] ∨ post = [newline]) ∧
            match_at sample_split_regex A = Some (b, post).

(** The name of a sample is [RAT] and at least one digit. *)
Definition is_sample_name (name : str) : Prop :=
  ∃ ds, name = $"RAT" ++ ds ∧ ds ≠ [] ∧ all is_digit ds.

(** ** Adapter sections *)

Definition blank (w : str) : Prop := w ≠ [] ∧ all is_space w.

Definition digits (ds : str) : Prop := ds ≠ [] ∧ all is_digit ds.

(** The text of one match of [adapter_block_regex] and its four groups:
    the header, then [Sequence: ...;], then [Trimmed: ... times], in this
    order, with any text [mid1] and [mid2] in between. *)
Definition adapter_section (m : str) (g : str * str * str * str) : Prop :=
  let '(g1, g2, g3, g4) := g in
  ∃ w1 w2 w3 w4 w5 mid1 w6 mid2 w7 w8,
    m = $"===" ++ w1 ++ g1 ++ w2 ++ $"read:" ++ w3 ++ $"Adapter" ++ w4 ++
        g2 ++ w5 ++ $"===" ++ mid1 ++
        $"Sequence:" ++ w6 ++ g3 ++ $";" ++ mid2 ++
        $"Trimmed:" ++ w7 ++ g4 ++ w8 ++ $"times" ∧
    (g1 = $"First" ∨ g1 = $"Second") ∧
    blank w1 ∧ blank w2 ∧ blank w3 ∧ blank w4 ∧ blank w5 ∧
    all is_space w6 ∧ blank w7 ∧ blank w8 ∧
    digits g2 ∧ (g3 ≠ [] ∧ all not_semicolon g3) ∧ digits g4.

(** The text [l] occurs somewhere in [s]. *)
Fixpoint occursb (l s : str) : bool :=
  match strip_prefix l s with
  | Some _ => true
  | None => match s with
            | [] => false
            | _ :: s' => occursb l s'
            end
  end.

(** The adapter sequence of a match: group 3, stripped. *)
Definition seq_of (g : str * str * str * str) : str := strip (g.1.2).

(** What one record does to the counters of its sequence. *)
Definition add_count (which_read : str) (n : Z) (c : counts) : counts :=
  if decide (lower which_read = $"first")
  then Counts (read1 c + n) (read2 c)
  else Counts (read1 c) (read2 c + n).

(** The distinct adapter sequences that the sections of a block name. *)
Definition block_sequences (block : str) : gset str :=
  list_to_set (seq_of <$> findall adapter_block_regex block).

(** ** Tables *)

Definition column_sum (f : OutputRow → Z) (rows : list OutputRow) : Z :=
  foldr (λ r acc, f r + acc) 0 rows.

(** A per-adapter row of the sample [name]. *)
Definition adapter_row (name : str) (r : OutputRow) : Prop :=
  sample_name r = name ∧
  total_trimmed r = trimmed_read1 r + trimmed_read2 r.

(** The rows of one block with the sequences [seqs]: one row per sequence,
    then the TOTAL row with the column sums; no row when there is no
    sequence. *)
Definition block_table (name : str) (seqs : list str)
    (table : list OutputRow) : Prop :=
  match seqs with
  | [] => table = []
  | _ :: _ =>
      ∃ adapters,
        table = adapters ++
                [Row name $"TOTAL"
                   (column_sum trimmed_read1 adapters)
                   (column_sum trimmed_read2 adapters)
                   (column_sum trimmed_read1 adapters
                    + column_sum trimmed_read2 adapters)] ∧
        adapter_sequence <$> adapters = seqs ∧
        Forall (adapter_row name) adapters
  end.

(** The table [table] is what the loop body appends for [block]. *)
Definition block_rows (block : str) (table : list OutputRow) : Prop :=
  ∃ name seqs,
    search sample_name_regex block = Some name ∧
    is_sample_name name ∧
    block_table name seqs table ∧
    StronglySorted str_lt seqs ∧
    (∀ q, q ∈ seqs ↔ q ∈ block_sequences block).

Definition column_names : list str :=
  [ $"Sample Name"; $"Adapter Sequence"; $"Trimmed (Read 1)";
    $"Trimmed (Read 2)"; $"Total Trimmed" ].

(** ** A final newline *)

(** [k'] does on [r ++ [newline]] what [k] does on [r]. *)
Definition follows {R} (f : R → R) (k k' : @cont R) : Prop :=
  ∀ r, k' (r ++ [newline]) = f <$> k r.

(** Moreover [k'] fails at the very end, behind the newline. *)
Definition follows_strictly {R} (f : R → R) (k k' : @cont R) : Prop :=
  follows f k k' ∧ k' [] = None.

(** What a pattern hands over on [s ++ [newline]], from what it hands over
    on [s]. *)
Definition longer_rest {G} (x : G * str) : G * str := (x.1, x.2 ++ [newline]).

(** ** The segmentation as the specification words it *)

(** The segmentation in the words of claim C2: the log is read line by
    line; a block begins at every line that starts with
    [Command line parameters:] and holds a token [RAT<digits>], and runs
    up to the next such line or to the end of the log. *)
Fixpoint split_lines (cur s : str) : list str :=
  match s with
  | [] => match cur with [] => [] | _ :: _ => [cur] end
  | c :: s' =>
      if decide (c = newline) then (cur ++ [c]) :: split_lines [] s'
      else split_lines (cur ++ [c]) s'
  end.

Fixpoint has_token (l : str) : bool :=
  match strip_prefix $"RAT" l with
  | Some (d :: _) => is_digit d
  | _ => false
  end
  || match l with
     | [] => false
     | _ :: l' => has_token l'
     end.

Definition header_line_with_token (l : str) : bool :=
  bool_decide (is_Some (strip_prefix header_lit l)) && has_token l.

Fixpoint claimed_from (cur : option str) (ls : list str) : list str :=
  match ls with
  | [] => option_list cur
  | l :: ls' =>
      if header_line_with_token l
      then option_list cur ++ claimed_from (Some l) ls'
      else claimed_from ((λ b, b ++ l) <$> cur) ls'
  end.

Definition claimed_blocks (log : str) : list str :=
  claimed_from None (split_lines [] log).

(** ** Logs *)

(** A run of Cutadapt on the sample RAT10, both reads trimmed of AAAA. *)
Definition block_scenario1 : str := $"Command line parameters: -a AAAA -A AAAA -o RAT10_R1.fq -p RAT10_R2.fq in_R1.fq in_R2.fq
Processing paired-end reads on 8 cores ...
Finished in 12.3 s (24 us/read; 2.5 M reads/minute).

=== Summary ===

Total read pairs processed:            500,000

=== First read: Adapter 1 ===

Sequence: AAAA; Type: regular 3'; Length: 4; Trimmed: 100 times

=== Second read: Adapter 2 ===

Sequence: AAAA; Type: regular 3'; Length: 4; Trimmed: 50 times".

Definition log_scenario1 : str :=
  $"This is cutadapt 4.4 with Python 3.10.12
" ++ block_scenario1 ++ [newline].

(** A section whose sequence reads TOTAL, next to an ordinary one. *)
Definition block_total_sequence : str := $"Command line parameters: -a AAAA -a TOTAL -o RAT7.fq in.fq
=== First read: Adapter 1 ===

Sequence: AAAA; Type: regular 3'; Length: 4; Trimmed: 5 times

=== First read: Adapter 2 ===

Sequence: TOTAL; Type: regular 3'; Length: 5; Trimmed: 12 times".

Definition log_total_sequence : str := block_total_sequence ++ [newline].

(** A block after the trimming of two reads, where the section of the
    first read lacks its [Sequence:] line. *)
Definition header_line_two_reads : str :=
$"Command line parameters: -a AAAA -A CCCC -o RAT3_R1.fq -p RAT3_R2.fq in_R1.fq in_R2.fq
".

Definition section_without_sequence : str := $"=== First read: Adapter 1 ===

Trimmed: 5 times".

Definition section_with_sequence : str := $"

=== Second read: Adapter 2 ===

Sequence: CCCC; Type: regular 3'; Length: 4; Trimmed: 7 times
".

Definition log_first_section_without_sequence : str :=
  header_line_two_reads ++ section_without_sequence ++ section_with_sequence.

(** A block that holds a section header and a [Trimmed:] line and no
    [Sequence:] at all. *)
Definition block_without_sequence : str :=
$"Command line parameters: -a AAAA -o RAT3.fq in.fq
=== First read: Adapter 1 ===

Trimmed: 5 times".

(** A log whose second header line names no sample. *)
Definition log_header_without_token : str :=
$"Command line parameters: -a AAAA -o RAT1.fq in.fq
Command line parameters: --version
=== First read: Adapter 1 ===
Sequence: AAAA; Type: regular 3'; Length: 4; Trimmed: 3 times
".

(** ** Counts that can be read, numbers that can be written *)

(** The count of the record has at most 4300 digits: [int] takes it. *)
Definition readable (g : str * str * str * str) : Prop :=
  Z.of_nat (length (g.2)) ≤ max_str_digits.

Global Instance readable_dec g : Decision (readable g).
Proof. unfold readable. apply _. Defined.

(** Every count in every block of the log can be read. *)
Definition counts_readable (log : str) : Prop :=
  Forall (λ block, Forall readable (findall adapter_block_regex block))
         (sample_blocks log).

Global Instance counts_readable_dec log : Decision (counts_readable log).
Proof. unfold counts_readable. apply _. Defined.

(** The three numbers of the row have at most 4300 digits each: [str]
    takes them. *)
Definition printable (r : OutputRow) : Prop :=
  str_ok (trimmed_read1 r) = true ∧ str_ok (trimmed_read2 r) = true ∧
  str_ok (total_trimmed r) = true.

Global Instance printable_dec r : Decision (printable r).
Proof. unfold printable. apply _. Defined.

(** The three numbers of the row fit a signed integer of 64 bits, the
    [int64] of a frame. *)
Definition int64 (z : Z) : Prop := - 2 ^ 63 ≤ z < 2 ^ 63.

Definition fits_int64 (r : OutputRow) : Prop :=
  int64 (trimmed_read1 r) ∧ int64 (trimmed_read2 r) ∧ int64 (total_trimmed r).

Global Instance fits_int64_dec r : Decision (fits_int64 r).
Proof. unfold fits_int64, int64. apply _. Defined.

(** A count of 4301 digits, and a log that holds it. *)
Definition long_count : str := replicate (Z.to_nat 4301) "1"%char.

Definition block_long_count : str :=
  $"Command line parameters: -a AAAA -o RAT1.fq in.fq
=== First read: Adapter 1 ===
Sequence: AAAA; Type: regular 3'; Length: 4; Trimmed: " ++ long_count ++
  $" times".

Definition log_long_count : str := block_long_count ++ [newline].

(** ** The counts of a block, record by record *)

(** The count of a record: its group 4, read as a number.  In a record of
    the pattern group 4 is a run of digits, and [int] succeeds. *)
Definition count_of (g : str * str * str * str) : Z := default 0 (int (g.2)).

(** The sum of the counts of the records of one read. *)
Definition trimmed (which_read : str) (records : list (str * str * str * str))
  : Z :=
  foldr (λ g acc, (if decide (g.1.1.1 = which_read) then count_of g else 0)
                  + acc) 0 records.

(** The records that name the sequence [q]. *)
Definition with_sequence (q : str) (records : list (str * str * str * str))
  : list (str * str * str * str) :=
  filter (λ g, seq_of g = q) records.

(** The row that sums up a list of records. *)
Definition row_of_records (name label : str)
    (records : list (str * str * str * str)) : OutputRow :=
  Row name label (trimmed $"First" records) (trimmed $"Second" records)
      (trimmed $"First" records + trimmed $"Second" records).

(** The sequences of the records, each once, in increasing order. *)
Definition distinct_sequences (records : list (str * str * str * str))
  : list str :=
  sorted (remove_dups (seq_of <$> records)).

(** The table of a sample, from the records of its block: a row for each
    sequence, over the records that name it, then the TOTAL row over all
    records. *)
Definition table_of (name : str) (records : list (str * str * str * str))
  : list OutputRow :=
  match distinct_sequences records with
  | [] => []
  | seqs =>
      ((λ q, row_of_records name q (with_sequence q records)) <$> seqs)
      ++ [row_of_records name $"TOTAL" records]
  end.

Definition table_of_block (block : str) : list OutputRow :=
  match search sample_name_regex block with
  | Some name => table_of name (findall adapter_block_regex block)
  | None => []
  end.

(** The rows of a log, block by block. *)
Definition expected_rows (log : str) : list OutputRow :=
  concat (table_of_block <$> sample_blocks log).

(** What the pattern lets through as a record: the read is [First] or
    [Second], and the count is a run of digits. *)
Definition well_formed (g : str * str * str * str) : Prop :=
  (g.1.1.1 = $"First" ∨ g.1.1.1 = $"Second") ∧ digits (g.2).

(** ** Logs with the same records in another order *)

(** A run on the sample RAT5 with one section for each read. *)
Definition header_line_rat5 : str :=
$"Command line parameters: -a AAAA -A CCCC -o RAT5_R1.fq -p RAT5_R2.fq in_R1.fq in_R2.fq
".

Definition section_first_aaaa : str := $"=== First read: Adapter 1 ===

Sequence: AAAA; Type: regular 3'; Length: 4; Trimmed: 5 times
".

Definition section_second_cccc : str := $"=== Second read: Adapter 2 ===

Sequence: CCCC; Type: regular 3'; Length: 4; Trimmed: 7 times
".

Definition block_first_then_second : str :=
  header_line_rat5 ++ section_first_aaaa ++ section_second_cccc.

Definition block_second_then_first : str :=
  header_line_rat5 ++ section_second_cccc ++ section_first_aaaa.

(** ** Texts without blanks at their ends *)

Definition no_blank_at_ends (q : str) : Prop :=
  (∀ c, head q = Some c → is_space c = false) ∧
  (∀ c, last q = Some c → is_space c = false).

(** ** The records of the CSV *)

(** The record of a row: its five cells in the order of the columns. *)
Definition csv_record (r : OutputRow) : list cell :=
  [ CStr (sample_name r); CStr (adapter_sequence r);
    CInt (trimmed_read1 r); CInt (trimmed_read2 r); CInt (total_trimmed r) ].

(** ** Where the header text stands *)

(** The text begins with the header text. *)
Definition header_at (s : str) : Prop := is_Some (strip_prefix header_lit s).

(** A block can begin here: the text begins with the header text, and
    [RAT] and a digit follow at some distance. *)
Definition block_start (q : str) : Prop :=
  ∃ x d r, q = header_lit ++ x ++ $"RAT" ++ d :: r ∧ is_digit d = true.

(** Somewhere in the log a block can begin. *)
Definition header_then_token (log : str) : Prop :=
  ∃ p q, log = p ++ q ∧ block_start q.

(** The scan of the log for blocks, from left to right: [gap] is a text in
    which no block can begin, [b] the block that the pattern matches
    behind it, and the scan goes on behind the block. *)
Inductive Scanned : str → list str → Prop :=
  | Scanned_end rest :
      (∀ p q, rest = p ++ q → ¬ block_start q) → Scanned rest []
  | Scanned_block gap b post bs x ds y :
      (∀ p u, gap = p ++ u → u ≠ [] → ¬ block_start (u ++ b ++ post)) →
      is_block b post x ds y → Scanned post bs →
      Scanned (gap ++ b ++ post) (b :: bs).

(** ** A section as Cutadapt writes it *)

(** The text of an adapter section, piece by piece: the header line with
    the read [g1] and the number [g2], the text [mid1], the field
    [Sequence:] with the sequence [g3], the text [mid2], and the field
    [Trimmed:] with the count [g4]; the [w]s are the blanks in between. *)
Definition section_text (w1 g1 w2 w3 w4 g2 w5 mid1 w6 g3 mid2 w7 g4 w8 : str)
  : str :=
  $"===" ++ w1 ++ g1 ++ w2 ++ $"read:" ++ w3 ++ $"Adapter" ++ w4 ++
  g2 ++ w5 ++ $"===" ++ mid1 ++
  $"Sequence:" ++ w6 ++ g3 ++ $";" ++ mid2 ++
  $"Trimmed:" ++ w7 ++ g4 ++ w8 ++ $"times".

(** The class [P] does not go on at the start of [r]. *)
Definition stops (P : ascii → bool) (r : str) : Prop :=
  match r with
  | c :: _ => P c = false
  | [] => True
  end.

(** The header of an adapter section begins here, as far as its read:
    [===], blanks, and [First] or [Second]. *)
Definition section_header_at (t : str) : bool :=
  match strip_prefix $"===" t with
  | Some r =>
      negb (bool_decide (run is_space r = []))
      && (bool_decide (is_Some (strip_prefix $"First" (after_run is_space r)))
          || bool_decide (is_Some (strip_prefix $"Second"
                                     (after_run is_space r))))
  | None => false
  end.

(** The header of a section begins somewhere in [pre], when the text
    [follow] comes behind it. *)
Fixpoint section_header_in (pre follow : str) : bool :=
  match pre with
  | [] => false
  | _ :: pre' =>
      section_header_at (pre ++ follow) || section_header_in pre' follow
  end.

(** The start of a block, up to its first section, and that section. *)
Definition block_start_with_summary : str :=
$"Command line parameters: -a AAAA -o RAT1.fq in.fq
=== Summary ===

Total reads processed:                 500,000

".

Definition plain_section_first : str := $"=== First read: Adapter 1 ===

Sequence: AAAA; Type: regular 3'; Length: 4; Trimmed: 100 times".

(** ** Sections that lack a field, and counts that are too long *)

(** A block whose last section lacks its [Sequence:] field, behind a
    section that is complete. *)
Definition section_second_without_sequence : str :=
$"=== Second read: Adapter 2 ===

Trimmed: 7 times
".

Definition block_incomplete_last : str :=
  header_line_rat5 ++ section_first_aaaa ++ section_second_without_sequence.

(** A section without [Sequence:] field, and behind it a section whose
    count has 4301 digits. *)
Definition section_long_count : str := $"

=== Second read: Adapter 2 ===

Sequence: CCCC; Type: regular 3'; Length: 4; Trimmed: " ++ long_count ++
  $" times
".

Definition block_borrows_long_count : str :=
  header_line_two_reads ++ section_without_sequence ++ section_long_count.

(** ** Records that count the same *)

(** Two records count the same when they agree in the read, in the
    stripped sequence and in the number that the count stands for. *)
Definition same_count (g g' : str * str * str * str) : Prop :=
  g.1.1.1 = g'.1.1.1 ∧ seq_of g = seq_of g' ∧ int (g.2) = int (g'.2).

(** Two blocks of the sample RAT5 with one section: the second one with
    another adapter number, blanks around the sequence, and zeros ahead
    of the count. *)
Definition block_plain_record : str :=
  header_line_rat5 ++ $"=== First read: Adapter 1 ===

Sequence: AAAA; Type: regular 3'; Length: 4; Trimmed: 5 times
".

Definition block_padded_record : str :=
  header_line_rat5 ++ $"=== First read: Adapter 12 ===

Sequence:   AAAA ; Type: regular 3'; Length: 4; Trimmed: 005 times
".

(** * Lemmas *)

(** ** The engine: what a piece consumes *)

Section Engine_facts.
Context {R : Type}.
Implicit Types (k : @cont R) (s r a l : str) (x : R) (P : ascii → bool).

Lemma strip_prefix_Some l s r : strip_prefix l s = Some r ↔ s = l ++ r.
Proof.
  revert s. induction l as [|c l IH]; intros [|d s]; simpl;
    try (split; [congruence | intros; simplify_eq; done]).
  case_decide; subst.
  - rewrite IH. split; intros; simplify_eq; done.
  - split; intros; simplify_eq.
Qed.

Lemma strip_prefix_app l r : strip_prefix l (l ++ r) = Some r.
Proof. by apply strip_prefix_Some. Qed.

Lemma lit_app l k r : lit l k (l ++ r) = k r.
Proof. unfold lit. by rewrite strip_prefix_app. Qed.

Lemma lit_inv l k s x :
  lit l k s = Some x → ∃ r, s = l ++ r ∧ k r = Some x.
Proof.
  unfold lit. destruct (strip_prefix l s) as [r|] eqn:E; [|done].
  apply strip_prefix_Some in E. eauto.
Qed.

(** [.*?] hands over at the first place where the rest of the pattern
    succeeds. *)
Lemma lazy_dot_inv k s x :
  lazy_dot k s = Some x →
  ∃ a r, s = a ++ r ∧ k r = Some x ∧
         ∀ a1 a2, a = a1 ++ a2 → a2 ≠ [] → k (a2 ++ r) = None.
Proof.
  induction s as [|c s IH]; simpl.
  - destruct (k []) eqn:E; [|done]. intros [= ->].
    exists [], []. split_and!; [done..|]. by intros [] [].
  - destruct (k (c :: s)) eqn:E.
    + intros [= ->]. exists [], (c :: s). split_and!; [done..|].
      by intros [] [].
    + intros (a & r & -> & Hk & Hmin)%IH.
      exists (c :: a), r. split_and!; [done..|].
      intros [|c' a1] a2 Ha Hne; simplify_eq/=; [done|].
      by eapply Hmin.
Qed.

Lemma lazy_dot_skip k a r :
  (∀ a1 a2, a = a1 ++ a2 → a2 ≠ [] → k (a2 ++ r) = None) →
  lazy_dot k (a ++ r) = lazy_dot k r.
Proof.
  induction a as [|c a IH]; intros Hmin; [done|]. simpl.
  pose proof (Hmin [] (c :: a) eq_refl) as H0. simpl in H0.
  rewrite H0 by done.
  apply IH. intros a1 a2 -> ?. by apply (Hmin (c :: a1)).
Qed.

Lemma lazy_dot_here k s x : k s = Some x → lazy_dot k s = Some x.
Proof. intros H. destruct s; simpl; by rewrite H. Qed.

Lemma run_after_run P s : s = run P s ++ after_run P s.
Proof. induction s as [|c s IH]; simpl; [done|]. destruct (P c); simpl; congruence. Qed.

Lemma all_run P s : all P (run P s).
Proof.
  induction s as [|c s IH]; simpl; [constructor|].
  destruct (P c) eqn:E; by constructor.
Qed.

Lemma after_run_head P s :
  match after_run P s with c :: _ => P c = false | [] => True end.
Proof.
  induction s as [|c s IH]; simpl; [done|]. by destruct (P c) eqn:E.
Qed.

Lemma run_app_stop P a r :
  all P a → match r with c :: _ => P c = false | [] => True end →
  run P (a ++ r) = a ∧ after_run P (a ++ r) = r.
Proof.
  induction 1 as [|c a Hc Ha IH]; intros Hr; simpl.
  - destruct r as [|c r]; [done|]. simpl. by rewrite Hr.
  - rewrite Hc. destruct (IH Hr) as [-> ->]. done.
Qed.

Lemma star_inv P k s x :
  star P k s = Some x → ∃ a r, s = a ++ r ∧ all P a ∧ k r = Some x.
Proof.
  induction s as [|c s IH]; simpl.
  - intros ?. exists [], []. split_and!; [done|constructor|done].
  - destruct (P c) eqn:E.
    + destruct (star P k s) eqn:Es.
      * intros [= ->]. destruct (IH eq_refl) as (a & r & -> & Ha & Hk).
        exists (c :: a), r. split_and!; [done| |done]. by constructor.
      * intros ?. exists [], (c :: s). split_and!; [done|constructor|done].
    + intros ?. exists [], (c :: s). split_and!; [done|constructor|done].
Qed.

Lemma plus_inv P k s x :
  plus P k s = Some x →
  ∃ a r, s = a ++ r ∧ a ≠ [] ∧ all P a ∧ k r = Some x.
Proof.
  destruct s as [|c s]; simpl; [done|]. destruct (P c) eqn:E; [|done].
  intros (a & r & -> & Ha & Hk)%star_inv.
  exists (c :: a), r. split_and!; [done..| |done]. by constructor.
Qed.

(** When the rest of the pattern cannot fail, a greedy run is the
    longest one. *)
Lemma star_total P k s :
  (∀ r, is_Some (k r)) → star P k s = k (after_run P s).
Proof.
  intros Hk. induction s as [|c s IH]; simpl; [done|].
  destruct (P c); [|done]. rewrite IH. by destruct (Hk (after_run P s)) as [? ->].
Qed.

Lemma plus_total P k c s :
  (∀ r, is_Some (k r)) → P c = true →
  plus P k (c :: s) = k (after_run P s).
Proof. intros Hk Hc. simpl. rewrite Hc. by apply star_total. Qed.

Lemma alt_inv (m1 m2 : @cont R → @cont R) k s x :
  alt m1 m2 k s = Some x → m1 k s = Some x ∨ m2 k s = Some x.
Proof. unfold alt. destruct (m1 k s); [left|right]; done. Qed.

Lemma group_inv m (Sh : str → Prop) (kg : str → @cont R) s x :
  consumes (R:=R) m Sh → group m kg s = Some x →
  ∃ a r, s = a ++ r ∧ Sh a ∧ kg a r = Some x.
Proof.
  intros Hm Hg. apply Hm in Hg as (a & r & -> & Ha & Hk).
  exists a, r. split_and!; [done..|].
  rewrite length_app, Nat.add_sub, take_app_length in Hk. done.
Qed.

Lemma consumes_lit l : consumes (R:=R) (lit l) (λ a, a = l).
Proof. intros k s x (r & -> & ?)%lit_inv. eauto. Qed.

Lemma consumes_plus P : consumes (R:=R) (plus P) (λ a, a ≠ [] ∧ all P a).
Proof. intros k s x (a & r & -> & ? & ? & ?)%plus_inv. eauto 6. Qed.

Lemma consumes_alt m1 m2 Sh1 Sh2 :
  consumes (R:=R) m1 Sh1 → consumes (R:=R) m2 Sh2 →
  consumes (R:=R) (alt m1 m2) (λ a, Sh1 a ∨ Sh2 a).
Proof.
  intros H1 H2 k s x [H|H]%alt_inv.
  - apply H1 in H as (a & r & ? & ? & ?). eauto 6.
  - apply H2 in H as (a & r & ? & ? & ?). eauto 6.
Qed.
End Engine_facts.

Lemma lookahead_inv {R} m (k : @cont R) s x :
  lookahead m k s = Some x → is_Some (m (λ _, Some ()) s) ∧ k s = Some x.
Proof. unfold lookahead. destruct (m _ s); [eauto|done]. Qed.

(** ** Scanning: [search] and [findall] *)

Section Scanning.
Context {G : Type} (re : pattern G).

Lemma findall_from_skip u n v :
  findall_from re (length u + n) (u ++ v) = findall_from re n v.
Proof. induction u as [|c u IH]; simpl; [done|]. apply IH. Qed.

Lemma findall_from_match a r g :
  a ≠ [] → match_at re (a ++ r) = Some (g, r) →
  findall_from re 0 (a ++ r) = g :: findall_from re 0 r.
Proof.
  destruct a as [|c a]; [done|]. intros _ Hm. simpl in *. rewrite Hm.
  f_equal. rewrite length_app, Nat.add_sub.
  by rewrite <-(findall_from_skip a 0 r), Nat.add_0_r.
Qed.

Lemma findall_from_nil n : consuming re → findall_from re n [] = [].
Proof.
  intros Hc. simpl. destruct n; [|done].
  destruct (match_at re []) as [[g r]|] eqn:E; [|done].
  apply Hc in E as ([|??] & ? & ?); simplify_eq/=.
Qed.

(** Every result of [findall] is a match of the pattern at some place of
    the text. *)
Lemma elem_of_findall_from n s g :
  g ∈ findall_from re n s →
  ∃ p q r, s = p ++ q ∧ match_at re q = Some (g, r).
Proof.
  revert n. induction s as [|c s IH]; intros n; simpl.
  - destruct n; [|by intros ?%elem_of_nil].
    destruct (match_at re []) as [[g' r]|] eqn:E; [|by intros ?%elem_of_nil].
    intros ->%list_elem_of_singleton. by exists [], [], r.
  - destruct n as [|n].
    + destruct (match_at re (c :: s)) as [[g' r]|] eqn:E.
      * intros [->|Hin]%elem_of_cons; [by exists [], (c :: s), r|].
        apply IH in Hin as (p & q & r' & -> & ?). by exists (c :: p), q, r'.
      * intros Hin. apply IH in Hin as (p & q & r' & -> & ?).
        by exists (c :: p), q, r'.
    + intros Hin. apply IH in Hin as (p & q & r' & -> & ?).
      by exists (c :: p), q, r'.
Qed.

Lemma search_app p q g r :
  match_at re q = Some (g, r) → is_Some (search re (p ++ q)).
Proof.
  intros Hq. induction p as [|c p IH]; simpl.
  - destruct q; simpl; rewrite Hq; eauto.
  - destruct (match_at re (c :: p ++ q)) as [[??]|]; eauto.
Qed.

Lemma search_inv s g :
  search re s = Some g → ∃ p q r, s = p ++ q ∧ match_at re q = Some (g, r).
Proof.
  induction s as [|c s IH]; simpl.
  - destruct (match_at re []) as [[g' r]|] eqn:E; [|done].
    intros [= ->]. by exists [], [], r.
  - destruct (match_at re (c :: s)) as [[g' r]|] eqn:E.
    + intros [= ->]. by exists [], (c :: s), r.
    + intros (p & q & r & -> & ?)%IH. by exists (c :: p), q, r.
Qed.
End Scanning.

(** ** Segmentation: the sample blocks *)

Section Split_facts.
Context {R : Type}.
Implicit Types (K : @cont R) (t r : str).

Lemma boundary_lookahead r :
  is_Some (alt (lit header_lit) dollar (λ _, Some ()) r) ↔ boundary r.
Proof.
  unfold alt, boundary. split.
  - destruct (lit header_lit _ r) eqn:E.
    + apply lit_inv in E as (r' & -> & _). eauto.
    + unfold dollar. destruct r as [|c [|??]]; [auto| |by intros []].
      case_decide; [subst; auto|by intros []].
  - intros [[r' ->]|[->| ->]]; [|by eexists..].
    rewrite lit_app. by eexists.
Qed.

Lemma lookahead_boundary K r :
  boundary r →
  lookahead (alt (lit header_lit) dollar) K r = K r.
Proof.
  intros [? E]%boundary_lookahead. unfold lookahead. by rewrite E.
Qed.

Lemma lookahead_no_boundary K r :
  ¬ boundary r →
  lookahead (alt (lit header_lit) dollar) K r = None.
Proof.
  intros Hb. unfold lookahead.
  destruct (alt _ _ _ r) eqn:E; [|done].
  destruct Hb. apply boundary_lookahead. eauto.
Qed.

(** [RAT\d+] followed by a rest that cannot fail *)
Lemma token_cont_inv K t v :
  (lit $"RAT" >> plus is_digit >> K) t = Some v → token_at t.
Proof.
  intros (r & -> & (a & r' & -> & Hne & Ha & _)%plus_inv)%lit_inv.
  destruct Ha as [|d a Hd _]; [done|]. by exists d, (a ++ r').
Qed.

Lemma token_cont_None K t :
  ¬ token_at t → (lit $"RAT" >> plus is_digit >> K) t = None.
Proof.
  intros Ht.
  destruct ((lit $"RAT" >> plus is_digit >> K) t) eqn:E; [|done].
  by apply token_cont_inv in E.
Qed.

Lemma token_cont_total K ds y :
  (∀ r, is_Some (K r)) → ds ≠ [] → all is_digit ds → no_digit_ahead y →
  (lit $"RAT" >> plus is_digit >> K) ($"RAT" ++ ds ++ y) = K y.
Proof.
  intros HK Hne Hds Hy. rewrite lit_app.
  destruct Hds as [|d ds Hd Hds]; [done|].
  change ((d :: ds) ++ y) with (d :: (ds ++ y)).
  rewrite plus_total by done.
  by destruct (run_app_stop is_digit ds y Hds Hy) as [_ ->].
Qed.

Lemma token_at_shape t :
  token_at t →
  ∃ ds y, t = $"RAT" ++ ds ++ y ∧ ds ≠ [] ∧ all is_digit ds ∧
          no_digit_ahead y.
Proof.
  intros (d & r & -> & Hd).
  exists (d :: run is_digit r), (after_run is_digit r). split_and!.
  - simpl. by rewrite <-run_after_run.
  - done.
  - constructor; [done|]. apply all_run.
  - apply after_run_head.
Qed.

Lemma lazy_dot_total K s :
  is_Some (K []) → is_Some (lazy_dot K s).
Proof.
  intros HK. induction s as [|c s IH]; simpl.
  - destruct (K []); [eauto|by destruct HK].
  - destruct (K (c :: s)); eauto.
Qed.
End Split_facts.

Lemma sample_split_unfold s :
  match_at sample_split_regex s =
  (lit header_lit >> lazy_dot >> lit $"RAT" >> plus is_digit >> lazy_dot >>
   split_end s) s.
Proof. reflexivity. Qed.

Lemma split_end_boundary s r :
  boundary r → split_end s r = Some (take (length s - length r) s, r).
Proof. intros. unfold split_end. by rewrite lookahead_boundary. Qed.

Lemma split_end_no_boundary s r : ¬ boundary r → split_end s r = None.
Proof. intros. unfold split_end. by rewrite lookahead_no_boundary. Qed.

Lemma split_end_total s t : is_Some (lazy_dot (split_end s) t).
Proof.
  apply lazy_dot_total. rewrite split_end_boundary; [eauto|].
  right. by left.
Qed.

Lemma split_end_inv s r v :
  split_end s r = Some v →
  boundary r ∧ v = (take (length s - length r) s, r).
Proof.
  unfold split_end. intros [Hb Hv]%lookahead_inv.
  apply boundary_lookahead in Hb. by simplify_eq.
Qed.

(** The pattern matches at [s] exactly when [s] starts with a block. *)
Lemma sample_split_match s g r :
  match_at sample_split_regex s = Some (g, r) ↔
  s = g ++ r ∧ ∃ x ds y, is_block g r x ds y.
Proof.
  rewrite sample_split_unfold. split.
  - intros (s1 & Hs & H)%lit_inv.
    apply lazy_dot_inv in H as (x & t & -> & Ht & Hx).
    pose proof (token_cont_inv _ _ _ Ht) as Htok.
    apply token_at_shape in Htok as (ds & y' & -> & Hne & Hds & Hy').
    rewrite token_cont_total in Ht by (done || apply split_end_total).
    apply lazy_dot_inv in Ht as (y & r0 & -> & Hend & Hy).
    apply split_end_inv in Hend as [Hb [= -> <-]]. subst s.
    assert (header_lit ++ x ++ $"RAT" ++ ds ++ y ++ r
            = (header_lit ++ x ++ $"RAT" ++ ds ++ y) ++ r) as ->.
    { by rewrite <-!(assoc_L (++)). }
    rewrite length_app, Nat.add_sub, take_app_length.
    split; [done|]. exists x, ds, y. split; try done.
    + intros x1 x2 -> Hx2 Htok.
      specialize (Hx x1 x2 eq_refl Hx2).
      apply token_at_shape in Htok as (ds' & y'' & E & ? & ? & ?).
      rewrite E, token_cont_total in Hx by (done || apply split_end_total).
      destruct (split_end_total
        (header_lit ++ (x1 ++ x2) ++ $"RAT" ++ ds ++ y ++ r) y'') as [? E'].
      congruence.
    + intros y1 y2 -> Hy2 Hb'.
      specialize (Hy y1 y2 eq_refl Hy2).
      by rewrite split_end_boundary in Hy.
  - intros [-> (x & ds & y & [-> Hx [Hne Hds] Hlong Hb Hy])].
    rewrite <-!(assoc_L (++)), lit_app.
    rewrite lazy_dot_skip.
    2:{ intros x1 x2 -> Hx2. apply token_cont_None. by eapply Hx. }
    erewrite lazy_dot_here; [done|].
    rewrite token_cont_total by (done || apply split_end_total).
    rewrite lazy_dot_skip.
    2:{ intros y1 y2 -> Hy2. apply split_end_no_boundary. by eapply Hy. }
    erewrite lazy_dot_here; [done|].
    rewrite split_end_boundary by done. do 2 f_equal.
    assert (header_lit ++ x ++ $"RAT" ++ ds ++ y ++ r
            = (header_lit ++ x ++ $"RAT" ++ ds ++ y) ++ r) as ->.
    { by rewrite <-!(assoc_L (++)). }
    by rewrite length_app, Nat.add_sub, take_app_length.
Qed.

Lemma sample_split_consuming : consuming sample_split_regex.
Proof.
  intros s g r [-> (x & ds & y & [-> _ _ _ _ _])]%sample_split_match.
  eexists. split; [|done]. done.
Qed.

Lemma elem_of_sample_blocks log b :
  b ∈ sample_blocks log →
  ∃ pre post x ds y, log = pre ++ b ++ post ∧ is_block b post x ds y.
Proof.
  intros (p & q & r & -> & [-> (x & ds & y & Hb)]%sample_split_match)
    %elem_of_findall_from.
  by exists p, r, x, ds, y.
Qed.

(** ** The sample name *)

Lemma sample_name_match ds y :
  ds ≠ [] → all is_digit ds → no_digit_ahead y →
  match_at sample_name_regex ($"RAT" ++ ds ++ y) = Some ($"RAT" ++ ds, y).
Proof.
  intros Hne Hds Hy. unfold match_at, sample_name_regex, group.
  rewrite token_cont_total by (eauto || done). do 2 f_equal.
  assert ($"RAT" ++ ds ++ y = ($"RAT" ++ ds) ++ y) as -> by done.
  by rewrite length_app, Nat.add_sub, take_app_length.
Qed.

Lemma sample_name_match_inv t g r :
  match_at sample_name_regex t = Some (g, r) →
  ∃ ds, t = g ++ r ∧ g = $"RAT" ++ ds ∧ ds ≠ [] ∧ all is_digit ds.
Proof.
  unfold match_at, sample_name_regex. intros H.
  eapply (group_inv _ (λ a, ∃ ds, a = $"RAT" ++ ds ∧ ds ≠ [] ∧ all is_digit ds))
    in H as (a & r' & -> & (ds & -> & ? & ?) & [= <- <-]).
  - by exists ds.
  - clear. intros k s x (r & -> & (a & r' & -> & ? & ? & ?)%plus_inv)%lit_inv.
    exists ($"RAT" ++ a), r'. split_and!; [done| |done]. by exists a.
Qed.

Lemma search_sample_name_inv block name :
  search sample_name_regex block = Some name → is_sample_name name.
Proof.
  intros (p & q & r & -> & (ds & _ & -> & ? & ?)%sample_name_match_inv)
    %search_inv.
  by exists ds.
Qed.

Lemma is_block_sample_name b post x ds y :
  is_block b post x ds y →
  ∃ name, search sample_name_regex b = Some name ∧ is_sample_name name.
Proof.
  intros [-> _ [Hne Hds] _ _ _].
  destruct (token_at_shape ($"RAT" ++ ds ++ y)) as (ds' & y' & E & ? & ? & ?).
  { destruct Hds as [|d ds Hd _]; [done|]. by exists d, (ds ++ y). }
  destruct (search_app sample_name_regex (header_lit ++ x) ($"RAT" ++ ds ++ y)
              ($"RAT" ++ ds') y') as [name Hname].
  { rewrite E. by apply sample_name_match. }
  rewrite <-(assoc_L (++)) in Hname. exists name. split; [done|].
  by eapply search_sample_name_inv.
Qed.

(** ** Adapter sections *)

Local Ltac unpack H :=
  first
    [ eapply (group_inv _ _ _ _ _ (consumes_plus _)) in H
        as (? & ? & -> & ? & H)
    | eapply (group_inv _ _ _ _ _
                (consumes_alt _ _ _ _ (consumes_lit _) (consumes_lit _))) in H
        as (? & ? & -> & ? & H)
    | apply lit_inv in H as (? & -> & H)
    | apply plus_inv in H as (? & ? & -> & ? & ? & H)
    | apply star_inv in H as (? & ? & -> & ? & H)
    | apply lazy_dot_inv in H as (? & ? & -> & H & _) ].

Local Opaque list_ascii_of_string.

Lemma adapter_match_inv s g r :
  match_at adapter_block_regex s = Some (g, r) →
  ∃ m, s = m ++ r ∧ adapter_section m g.
Proof.
  unfold match_at, adapter_block_regex. intros H.
  repeat unpack H.
  injection H as <- <-. cbv beta in *. destruct_and!.
  eexists. split.
  { rewrite !(assoc_L (++)). reflexivity. }
  rewrite <-!(assoc_L (++)). unfold adapter_section, blank, digits.
  do 10 eexists. (split; [reflexivity|]). (split_and!; done).
Qed.

Lemma elem_of_findall_adapter block g :
  g ∈ findall adapter_block_regex block →
  ∃ pre m post, block = pre ++ m ++ post ∧ adapter_section m g.
Proof.
  intros (p & q & r & -> & (m & -> & ?)%adapter_match_inv)
    %elem_of_findall_from.
  by exists p, m, r.
Qed.

Local Transparent list_ascii_of_string.

(** ** The order on strings *)

Lemma code_inj a b : code a = code b → a = b.
Proof.
  unfold code. intros H.
  by rewrite <-(ascii_N_embedding a), <-(ascii_N_embedding b), H.
Qed.

Lemma str_compare_eq a b : str_compare a b = Eq ↔ a = b.
Proof.
  revert b. induction a as [|x a IH]; intros [|y b]; simpl; try done.
  destruct (N.compare_spec (code x) (code y)) as [E|E|E].
  - apply code_inj in E as ->. rewrite IH. split; intros; simplify_eq; done.
  - split; [done|]. intros [= -> _]. lia.
  - split; [done|]. intros [= -> _]. lia.
Qed.

Lemma str_compare_antisym a b : str_compare b a = CompOpp (str_compare a b).
Proof.
  revert b. induction a as [|x a IH]; intros [|y b]; simpl; try done.
  rewrite (N.compare_antisym (code x) (code y)).
  destruct (code x ?= code y)%N; simpl; auto.
Qed.

Lemma str_compare_trans c a b d :
  str_compare a b = c → str_compare b d = c → str_compare a d = c.
Proof.
  revert b d. induction a as [|x a IH]; intros [|y b] [|z d]; simpl;
    try congruence.
  destruct (N.compare_spec (code x) (code y)) as [E1|E1|E1];
  destruct (N.compare_spec (code y) (code z)) as [E2|E2|E2];
  destruct (N.compare_spec (code x) (code z)) as [E3|E3|E3];
    try congruence; try lia; eauto.
Qed.

Global Instance str_le_total : Total str_le.
Proof.
  intros a b. unfold str_le. rewrite (str_compare_antisym a b).
  destruct (str_compare a b); simpl; auto.
Qed.

Global Instance str_le_trans : Transitive str_le.
Proof.
  intros a b d. unfold str_le.
  destruct (str_compare a b) eqn:E1; [| |done];
  destruct (str_compare b d) eqn:E2; try done; intros _ _.
  - apply str_compare_eq in E1 as ->. by rewrite E2.
  - apply str_compare_eq in E1 as ->. by rewrite E2.
  - apply str_compare_eq in E2 as <-. by rewrite E1.
  - by rewrite (str_compare_trans Lt a b d).
Qed.

Global Instance str_le_antisym : AntiSymm (=) str_le.
Proof.
  intros a b. unfold str_le. rewrite (str_compare_antisym a b).
  destruct (str_compare a b) eqn:E; simpl; try done.
  intros. by apply str_compare_eq.
Qed.

Lemma str_le_lt a b : str_le a b → a ≠ b → str_lt a b.
Proof.
  unfold str_le, str_lt. destruct (str_compare a b) eqn:E; try done.
  apply str_compare_eq in E. done.
Qed.

Lemma sorted_strict (l : list str) : NoDup l → StronglySorted str_lt (sorted l).
Proof.
  intros Hnd. unfold sorted.
  assert (NoDup (merge_sort str_le l)) as Hnd'.
  { by rewrite merge_sort_Permutation. }
  pose proof (StronglySorted_merge_sort str_le l) as Hs.
  induction Hs as [|x l' Hs IH Hx]; [constructor|].
  apply NoDup_cons in Hnd' as [Hx' Hnd']. constructor; [auto|].
  rewrite Forall_forall in Hx |- *. intros y Hy.
  apply str_le_lt; [auto|]. intros ->. done.
Qed.

(** ** Aggregation *)

Lemma for_each_cons {A S} (body : S → A → option S) st x l :
  for_each body st (x :: l) = body st x ≫= λ st', for_each body st' l.
Proof. reflexivity. Qed.

(** [int] takes the runs of at most 4300 digits, and nothing else. *)
Lemma int_digits ds :
  digits ds → Z.of_nat (length ds) ≤ max_str_digits → is_Some (int ds).
Proof.
  intros [Hne Hds] Hlen. unfold int. destruct ds as [|d ds]; [done|].
  assert (forallb is_digit (d :: ds) = true) as ->.
  { apply forallb_forall. intros c Hc. unfold all in Hds.
    rewrite Forall_forall in Hds.
    apply Hds. by apply list_elem_of_In. }
  apply Z.leb_le in Hlen. rewrite Hlen. simpl. eauto.
Qed.

Lemma int_Some_length s : is_Some (int s) → Z.of_nat (length s) ≤ max_str_digits.
Proof.
  unfold int. destruct s as [|c s]; [by intros [? ?]|].
  destruct (forallb is_digit (c :: s)); [|by intros [? ?]].
  destruct (Z.leb_spec (Z.of_nat (length (c :: s))) max_str_digits);
    [done|by intros [? ?]].
Qed.

Lemma int_readable g :
  digits (g.2) → is_Some (int (g.2)) ↔ readable g.
Proof.
  intros Hg. split; [apply int_Some_length|by apply int_digits].
Qed.

Lemma accumulate_Some (data : gmap str counts) g n :
  int (g.2) = Some n →
  accumulate data g =
  Some (<[seq_of g := add_count (g.1.1.1) n
                        (default (Counts 0 0) (data !! seq_of g))]> data).
Proof.
  destruct g as [[[g1 g2] g3] g4]. unfold accumulate, seq_of, add_count.
  simpl. intros ->. simpl.
  destruct (data !! strip g3) as [c|] eqn:E; simpl.
  - rewrite E. simpl. by case_decide.
  - rewrite lookup_insert_eq. simpl. case_decide; by rewrite insert_insert_eq.
Qed.

Lemma accumulate_None (data : gmap str counts) g :
  int (g.2) = None → accumulate data g = None.
Proof.
  destruct g as [[[g1 g2] g3] g4]. unfold accumulate. simpl. by intros ->.
Qed.

(** The loop over the records raises exactly when [int] raises on the
    count of one of them. *)
Lemma for_each_accumulate_None (data : gmap str counts) l :
  ¬ Forall (λ g, is_Some (int (g.2))) l → for_each accumulate data l = None.
Proof.
  revert data. induction l as [|g l IH]; intros data Hl.
  { destruct Hl. constructor. }
  rewrite for_each_cons.
  destruct (int (g.2)) as [n|] eqn:Hn.
  - rewrite (accumulate_Some _ _ _ Hn). cbn [mbind option_bind].
    apply IH. intros Hl'. apply Hl. constructor; [by rewrite Hn|done].
  - by rewrite accumulate_None.
Qed.

Lemma for_each_accumulate (data : gmap str counts) l :
  Forall (λ g, is_Some (int (g.2))) l →
  ∃ data', for_each accumulate data l = Some data' ∧
           dom data' = dom data ∪ list_to_set (seq_of <$> l).
Proof.
  revert data. induction l as [|g l IH]; intros data Hl; simpl.
  - exists data. split; [done|].
    by rewrite (right_id_L ∅ (∪)).
  - apply Forall_cons in Hl as [[n Hn] Hl].
    rewrite (accumulate_Some _ _ _ Hn). simpl.
    destruct (IH (<[seq_of g := add_count (g.1.1.1) n
                      (default (Counts 0 0) (data !! seq_of g))]> data) Hl)
      as (data' & -> & Hdom).
    exists data'. split; [done|].
    rewrite Hdom, dom_insert_L.
    by rewrite (comm_L (∪) {[seq_of g]} (dom data)), <-(assoc_L (∪)).
Qed.

Lemma findall_adapter_digits block :
  Forall (λ g, digits (g.2)) (findall adapter_block_regex block).
Proof.
  apply Forall_forall. intros [[[g1 g2] g3] g4] Hg.
  apply elem_of_findall_adapter in Hg as (_ & m & _ & _ & Hm).
  destruct Hm as (?&?&?&?&?&?&?&?&?&?& _ & Hm). simpl. tauto.
Qed.

(** For the records of the pattern, [int] takes the count exactly when
    it has at most 4300 digits. *)
Lemma findall_adapter_readable block :
  Forall (λ g, is_Some (int (g.2))) (findall adapter_block_regex block)
  ↔ Forall readable (findall adapter_block_regex block).
Proof.
  pose proof (findall_adapter_digits block) as Hd.
  rewrite !Forall_forall in *. split; intros H g Hg.
  - apply int_readable; auto.
  - apply int_readable; auto.
Qed.

(** ** Row emission *)

Lemma for_each_emit (name : str) (data : gmap str counts) (seqs : list str)
    (rows : list OutputRow) (t1 t2 : Z) :
  Forall (λ q, is_Some (data !! q)) seqs →
  ∃ new, for_each (emit name data) (rows, t1, t2) seqs =
           Some (rows ++ new,
                 t1 + column_sum trimmed_read1 new,
                 t2 + column_sum trimmed_read2 new) ∧
         adapter_sequence <$> new = seqs ∧
         Forall (adapter_row name) new.
Proof.
  revert rows t1 t2. induction seqs as [|q seqs IH]; intros rows t1 t2 Hs.
  - exists []. simpl. rewrite (right_id_L [] (++)), !Z.add_0_r. done.
  - apply Forall_cons in Hs as [[c Hc] Hs]. simpl. rewrite Hc. simpl.
    destruct (IH (rows ++ [Row name q (read1 c) (read2 c) (read1 c + read2 c)])
                 (t1 + read1 c) (t2 + read2 c) Hs) as (new & -> & Hseq & Hnew).
    exists (Row name q (read1 c) (read2 c) (read1 c + read2 c) :: new).
    split_and!.
    + simpl. rewrite <-(assoc_L (++)). simpl.
      f_equal. f_equal; [f_equal|]; lia.
    + by rewrite fmap_cons, Hseq.
    + by constructor.
Qed.

Lemma elem_of_keys (data : gmap str counts) q :
  q ∈ keys data ↔ is_Some (data !! q).
Proof.
  unfold keys. rewrite list_elem_of_fmap. split.
  - intros ([q' c] & -> & H%elem_of_map_to_list). eauto.
  - intros [c H]. exists (q, c). split; [done|]. by apply elem_of_map_to_list.
Qed.

Lemma elem_of_sorted l q : q ∈ sorted l ↔ q ∈ l.
Proof. unfold sorted. by rewrite merge_sort_Permutation. Qed.

Lemma process_block_named rows block name :
  search sample_name_regex block = Some name →
  Forall readable (findall adapter_block_regex block) →
  ∃ seqs table,
    process_block rows block = Some (rows ++ table) ∧
    block_table name seqs table ∧
    StronglySorted str_lt seqs ∧
    (∀ q, q ∈ seqs ↔ q ∈ block_sequences block).
Proof.
  intros Hname Hread%findall_adapter_readable.
  unfold process_block. rewrite Hname.
  destruct (for_each_accumulate ∅ _ Hread) as (data & -> & Hdom).
  simpl.
  destruct (for_each_emit name data (sorted (keys data)) rows 0 0)
    as (new & -> & Hseq & Hnew).
  { apply Forall_forall. intros q. by rewrite elem_of_sorted, elem_of_keys. }
  simpl. exists (sorted (keys data)).
  assert (∀ q, q ∈ sorted (keys data) ↔ q ∈ block_sequences block) as Hmem.
  { intros q. rewrite elem_of_sorted, elem_of_keys, <-elem_of_dom, Hdom.
    by rewrite dom_empty_L, (left_id_L ∅ (∪)). }
  assert (StronglySorted str_lt (sorted (keys data))) as Hsorted.
  { apply sorted_strict, NoDup_fst_map_to_list. }
  destruct (sorted (keys data)) as [|q seqs] eqn:E.
  - exists []. destruct new; [|done].
    by rewrite (right_id_L [] (++)).
  - eexists. rewrite <-(assoc_L (++)). split_and!; [done| |done..].
    exists new. rewrite !Z.add_0_l. done.
Qed.

Lemma process_block_unnamed rows block :
  search sample_name_regex block = None → process_block rows block = Some rows.
Proof. intros H. unfold process_block. by rewrite H. Qed.

(** The loop body raises on a block with a count of more than 4300
    digits. *)
Lemma process_block_raises rows block name :
  search sample_name_regex block = Some name →
  ¬ Forall readable (findall adapter_block_regex block) →
  process_block rows block = None.
Proof.
  intros Hname Hread. unfold process_block. rewrite Hname.
  rewrite for_each_accumulate_None; [done|].
  by rewrite findall_adapter_readable.
Qed.

(** ** The whole log *)

Lemma for_each_process_block rows blocks :
  Forall (λ b, is_Some (search sample_name_regex b)) blocks →
  Forall (λ b, Forall readable (findall adapter_block_regex b)) blocks →
  ∃ tables, for_each process_block rows blocks = Some (rows ++ concat tables) ∧
            Forall2 block_rows blocks tables.
Proof.
  revert rows. induction blocks as [|b blocks IH]; intros rows Hb Hr.
  - exists []. simpl. by rewrite (right_id_L [] (++)).
  - apply Forall_cons in Hb as [[name Hname] Hb].
    apply Forall_cons in Hr as [Hrb Hr]. simpl.
    destruct (process_block_named rows b name Hname Hrb)
      as (seqs & table & -> & Ht & Hs & Hq).
    simpl. destruct (IH (rows ++ table) Hb Hr) as (tables & -> & Htables).
    exists (table :: tables). simpl. rewrite (assoc_L (++)). split; [done|].
    constructor; [|done]. exists name, seqs. split_and!; try done.
    by eapply search_sample_name_inv.
Qed.

Lemma sample_blocks_named log :
  Forall (λ b, is_Some (search sample_name_regex b)) (sample_blocks log).
Proof.
  apply Forall_forall. intros b (pre & post & x & ds & y & _ & Hb)
    %elem_of_sample_blocks.
  apply is_block_sample_name in Hb as (name & -> & _). eauto.
Qed.

Lemma for_each_process_block_raises rows blocks :
  Forall (λ b, is_Some (search sample_name_regex b)) blocks →
  ¬ Forall (λ b, Forall readable (findall adapter_block_regex b)) blocks →
  for_each process_block rows blocks = None.
Proof.
  revert rows. induction blocks as [|b blocks IH]; intros rows Hb Hr.
  { destruct Hr. constructor. }
  apply Forall_cons in Hb as [[name Hname] Hb]. rewrite for_each_cons.
  destruct (decide (Forall readable (findall adapter_block_regex b)))
    as [Hrb | Hrb].
  - destruct (process_block_named rows b name Hname Hrb)
      as (seqs & table & -> & _). cbn [mbind option_bind].
    apply IH; [done|]. intros Hr'. apply Hr. by constructor.
  - by rewrite (process_block_raises rows b name).
Qed.

(** When every count can be read, [parse_rows] returns, and its result is
    the tables of the sample blocks, one after the other. *)
Lemma parse_rows_tables log :
  counts_readable log →
  ∃ tables, parse_rows log = Some (concat tables) ∧
            Forall2 block_rows (sample_blocks log) tables.
Proof.
  intros Hr.
  destruct (for_each_process_block [] _ (sample_blocks_named log) Hr)
    as (tables & H & Ht).
  by exists tables.
Qed.

(** When a count cannot be read, [parse_rows] raises. *)
Lemma parse_rows_raises log : ¬ counts_readable log → parse_rows log = None.
Proof.
  intros Hr. apply for_each_process_block_raises; [|done].
  apply sample_blocks_named.
Qed.

Lemma parse_rows_Some log rows :
  parse_rows log = Some rows → counts_readable log.
Proof.
  intros H. destruct (decide (counts_readable log)) as [|Hr]; [done|].
  by rewrite (parse_rows_raises log Hr) in H.
Qed.

(** ** Logs without adapter section, and the columns of the frame *)

Lemma process_block_no_section rows block :
  findall adapter_block_regex block = [] → process_block rows block = Some rows.
Proof.
  intros H. unfold process_block. rewrite H.
  by destruct (search sample_name_regex block).
Qed.

Lemma for_each_no_section rows blocks :
  Forall (λ b, findall adapter_block_regex b = []) blocks →
  for_each process_block rows blocks = Some rows.
Proof.
  induction 1 as [|b blocks Hb _ IH]; [done|]. simpl.
  by rewrite (process_block_no_section _ _ Hb).
Qed.

Lemma add_keys_row cols r :
  cols = [] ∨ cols = column_names → add_keys cols (row_dict r) = column_names.
Proof. by intros [-> | ->]. Qed.

(** With at least one row, the columns of the frame are the five keys of
    the row dictionaries. *)
Lemma make_frame_columns r rows :
  columns (make_frame (row_dict <$> r :: rows)) = column_names.
Proof.
  unfold make_frame. cbn [columns]. rewrite fmap_cons. cbn [fold_left].
  change (add_keys [] (row_dict r)) with column_names.
  assert (∀ cols, cols = column_names →
            fold_left add_keys (row_dict <$> rows) cols = column_names) as H;
    [|by apply H].
  induction rows as [|r' rows IH]; intros cols ->; [done|].
  rewrite fmap_cons. cbn [fold_left]. apply IH. apply add_keys_row. auto.
Qed.

(** ** Occurrences of a text *)

Lemma occursb_app l p q : occursb l (p ++ l ++ q) = true.
Proof.
  induction p as [|c p IH]; simpl.
  - destruct (l ++ q) eqn:E; simpl; rewrite <-E, strip_prefix_app; done.
  - by destruct (strip_prefix l (c :: p ++ l ++ q)).
Qed.

Lemma occursb_skip l p s : occursb l s = true → occursb l (p ++ s) = true.
Proof.
  intros H. induction p as [|c p IH]; simpl; [done|].
  by destruct (strip_prefix l (c :: p ++ s)).
Qed.

Local Opaque list_ascii_of_string.

Lemma adapter_section_sequence pre m post g :
  adapter_section m g → occursb $"Sequence:" (pre ++ m ++ post) = true.
Proof.
  destruct g as [[[g1 g2] g3] g4].
  intros (w1 & w2 & w3 & w4 & w5 & mid1 & w6 & mid2 & w7 & w8 & -> & _).
  rewrite <-!(assoc_L (++)).
  repeat first [ apply (occursb_app _ []) | apply occursb_skip ].
Qed.

Lemma adapter_section_trimmed pre m post g :
  adapter_section m g → occursb $"Trimmed:" (pre ++ m ++ post) = true.
Proof.
  destruct g as [[[g1 g2] g3] g4].
  intros (w1 & w2 & w3 & w4 & w5 & mid1 & w6 & mid2 & w7 & w8 & -> & _).
  rewrite <-!(assoc_L (++)).
  repeat first [ apply (occursb_app _ []) | apply occursb_skip ].
Qed.

Local Transparent list_ascii_of_string.

(** The loop body returns when every count of the block can be read. *)
Lemma process_block_total rows block :
  Forall readable (findall adapter_block_regex block) →
  is_Some (process_block rows block).
Proof.
  intros Hr. destruct (search sample_name_regex block) as [name|] eqn:E.
  - destruct (process_block_named rows block name E Hr) as (?&?& -> &_). eauto.
  - rewrite process_block_unnamed by done. eauto.
Qed.

(** ** A newline at the end of the text

    None of the two patterns that work inside a block can end its match on
    a final newline, so such a newline changes no match: the pattern does
    on [s ++ [newline]] what it does on [s], and what it hands over is
    longer by the newline. *)

Section Final_newline.
Context {R : Type} (f : R → R).
Implicit Types (k : @cont R) (P : ascii → bool) (l s r : str).

Lemma strip_prefix_newline l r :
  newline ∉ l →
  strip_prefix l (r ++ [newline]) = (.++ [newline]) <$> strip_prefix l r.
Proof.
  revert r. induction l as [|c l IH]; intros r Hl; [done|].
  apply not_elem_of_cons in Hl as [Hc Hl].
  destruct r as [|d r]; simpl.
  - case_decide; [congruence|done].
  - case_decide; [by apply IH|done].
Qed.

Lemma follows_lit l k k' :
  newline ∉ l → follows f k k' → follows f (lit l k) (lit l k').
Proof.
  intros Hl Hk r. unfold lit. rewrite strip_prefix_newline by done.
  destruct (strip_prefix l r); simpl; [apply Hk|done].
Qed.

Lemma strictly_lit l k k' :
  newline ∉ l → follows_strictly f k k' →
  follows_strictly f (lit l k) (lit l k').
Proof.
  intros Hl [Hk Hnil]. split; [by apply follows_lit|].
  unfold lit. by destruct l.
Qed.

Lemma strictly_lit_last l k k' :
  newline ∉ l → l ≠ [] → follows f k k' →
  follows_strictly f (lit l k) (lit l k').
Proof.
  intros Hl Hne Hk. split; [by apply follows_lit|].
  unfold lit. by destruct l.
Qed.

Lemma strictly_lazy_dot k k' :
  follows_strictly f k k' → follows_strictly f (lazy_dot k) (lazy_dot k').
Proof.
  intros [Hk Hnil]. split; [|by simpl; rewrite Hnil].
  pose proof (Hk []) as Hk0. simpl in Hk0.
  intros r. induction r as [|c r IH]; simpl.
  - rewrite Hk0, Hnil. by destruct (k []).
  - pose proof (Hk (c :: r)) as Hkc. simpl in Hkc. rewrite Hkc.
    destruct (k (c :: r)); [done|]. apply IH.
Qed.

Lemma star_newline P k k' :
  follows f k k' → (P newline = true → k' [] = None) →
  follows f (star P k) (star P k').
Proof.
  intros Hk Hnil r. pose proof (Hk []) as Hk0. simpl in Hk0.
  induction r as [|c r IH]; simpl.
  - rewrite Hk0. destruct (P newline) eqn:E; [|done].
    by rewrite Hnil.
  - pose proof (Hk (c :: r)) as Hkc. simpl in Hkc. rewrite Hkc, IH.
    destruct (P c); [|done]. by destruct (star P k r).
Qed.

Lemma strictly_star P k k' :
  follows_strictly f k k' → follows_strictly f (star P k) (star P k').
Proof. intros [Hk Hnil]. split; [by apply star_newline|done]. Qed.

Lemma strictly_plus P k k' :
  follows_strictly f k k' → follows_strictly f (plus P k) (plus P k').
Proof.
  intros [Hk Hnil]. split; [|done]. intros [|c r]; simpl.
  - destruct (P newline); [done|done].
  - destruct (P c); [|done]. by apply star_newline.
Qed.

Lemma strictly_plus_last P k k' :
  P newline = false → follows f k k' →
  follows_strictly f (plus P k) (plus P k').
Proof.
  intros HP Hk. split; [|done]. intros [|c r]; simpl.
  - by rewrite HP.
  - destruct (P c); [|done]. apply star_newline; [done|congruence].
Qed.

Lemma strictly_alt (m1 m2 : @cont R → @cont R) k k' :
  follows_strictly f (m1 k) (m1 k') → follows_strictly f (m2 k) (m2 k') →
  follows_strictly f (alt m1 m2 k) (alt m1 m2 k').
Proof.
  intros [H1 N1] [H2 N2]. unfold alt. split; [|by rewrite N1].
  intros r. rewrite H1, H2. by destruct (m1 k r).
Qed.

Lemma take_newline s r :
  take (length (s ++ [newline]) - length (r ++ [newline])) (s ++ [newline])
  = take (length s - length r) s.
Proof.
  rewrite !length_app. simpl.
  replace (length s + 1 - (length r + 1))%nat
    with (length s - length r)%nat by lia.
  apply take_app_le. lia.
Qed.

Lemma strictly_group (m : @cont R → @cont R) (kg kg' : str → @cont R) :
  (∀ k k', follows_strictly f k k' → follows_strictly f (m k) (m k')) →
  (∀ g, follows_strictly f (kg g) (kg' g)) →
  follows_strictly f (group m kg) (group m kg').
Proof.
  intros Hm Hkg. split.
  - intros s. unfold group. apply Hm. split.
    + intros r. rewrite take_newline. apply Hkg.
    + apply Hkg.
  - unfold group. eapply (Hm (kg [])). split.
    + intros r. simpl. apply Hkg.
    + apply Hkg.
Qed.

Lemma strictly_group_last (m : @cont R → @cont R) (kg kg' : str → @cont R) :
  (∀ k k', follows f k k' → follows_strictly f (m k) (m k')) →
  (∀ g, follows f (kg g) (kg' g)) →
  follows_strictly f (group m kg) (group m kg').
Proof.
  intros Hm Hkg. split.
  - intros s. unfold group. apply Hm.
    intros r. rewrite take_newline. apply Hkg.
  - unfold group. eapply (Hm (kg [])). intros r. simpl. apply Hkg.
Qed.
End Final_newline.

Local Ltac no_newline := apply (bool_decide_unpack _); vm_compute; exact I.

Local Ltac final_newline :=
  repeat first
    [ apply strictly_lit_last;
        [no_newline | done | first [assumption | by intros ?]]
    | apply strictly_plus_last;
        [reflexivity | first [assumption | by intros ?]]
    | apply strictly_lit; [no_newline|]
    | apply strictly_plus
    | apply strictly_star
    | apply strictly_lazy_dot
    | apply strictly_alt
    | apply strictly_group_last; [intros ? ? ? | by intros ? ?]
    | apply strictly_group; [intros ? ? ? | intros ?]
    | assumption ].

Lemma adapter_final_newline :
  follows_strictly longer_rest (match_at adapter_block_regex)
                               (match_at adapter_block_regex).
Proof. unfold match_at, adapter_block_regex. final_newline. Qed.

Lemma sample_name_final_newline :
  follows_strictly longer_rest (match_at sample_name_regex)
                               (match_at sample_name_regex).
Proof. unfold match_at, sample_name_regex. final_newline. Qed.

Section Scanning_newline.
Context {G : Type} (re : pattern G).
Hypothesis Hre : follows_strictly longer_rest (match_at re) (match_at re).

Lemma match_at_only_newline : match_at re [newline] = None.
Proof.
  destruct Hre as [H Hnil]. pose proof (H []) as H0. simpl in H0.
  by rewrite H0, Hnil.
Qed.

Lemma search_final_newline s : search re (s ++ [newline]) = search re s.
Proof.
  destruct Hre as [H Hnil]. induction s as [|c s IH]; simpl.
  - by rewrite match_at_only_newline, Hnil.
  - pose proof (H (c :: s)) as Hc. simpl in Hc. rewrite Hc.
    destruct (match_at re (c :: s)) as [[g r]|]; simpl; [done|apply IH].
Qed.

Lemma findall_from_final_newline n s :
  findall_from re n (s ++ [newline]) = findall_from re n s.
Proof.
  destruct Hre as [H Hnil]. revert n.
  induction s as [|c s IH]; intros n; simpl.
  - destruct n; simpl; rewrite ?match_at_only_newline, ?Hnil; [done|].
    by destruct n.
  - destruct n as [|n]; [|apply IH].
    pose proof (H (c :: s)) as Hc. simpl in Hc. rewrite Hc.
    destruct (match_at re (c :: s)) as [[g r]|]; simpl; [|apply IH].
    f_equal. rewrite !length_app. simpl.
    replace (length s + 1 - (length r + 1))%nat
      with (length s - length r)%nat by lia.
    apply IH.
Qed.
End Scanning_newline.

(** The loop body does on a block with a final newline what it does on the
    block without it. *)
Lemma process_block_final_newline rows block :
  process_block rows (block ++ [newline]) = process_block rows block.
Proof.
  unfold process_block, findall.
  rewrite (search_final_newline _ sample_name_final_newline).
  by rewrite (findall_from_final_newline _ adapter_final_newline).
Qed.

(** ** One block after another *)

(** The header text does not overlap itself: where it begins inside [u]
    and runs on into a header that follows [u], it lies within [u]. *)
Lemma header_no_overlap u rest :
  u ≠ [] → is_Some (strip_prefix header_lit (u ++ header_lit ++ rest)) →
  is_Some (strip_prefix header_lit u).
Proof.
  intros Hne [r H]. destruct u as [|c u]; [done|]. clear Hne.
  unfold header_lit in *. simpl list_ascii_of_string in *.
  simpl in H |- *. case_decide; [subst|discriminate H].
  do 23 (destruct u as [|? u];
         [ vm_compute in H; discriminate H
         | simpl in H |- *; case_decide; [subst|discriminate H] ]).
  by eexists.
Qed.

Lemma boundary_header t : boundary (header_lit ++ t).
Proof. left. by exists t. Qed.

Lemma boundary_before_header u rest :
  u ≠ [] → boundary (u ++ header_lit ++ rest) → boundary u.
Proof.
  intros Hne [[r H]|[H|H]].
  - destruct (header_no_overlap u rest Hne) as [r' Hr'].
    { exists r. by apply strip_prefix_Some. }
    apply strip_prefix_Some in Hr'. left. by exists r'.
  - by destruct u.
  - apply (f_equal length) in H. rewrite !length_app in H.
    destruct u; [done|]. unfold header_lit in H. simpl in H. lia.
Qed.

(** A token is decided by four characters. *)
Lemma token_at_ext u v v' :
  (4 ≤ length u)%nat → token_at (u ++ v) → token_at (u ++ v').
Proof.
  intros Hu (d & r & H & Hd).
  destruct u as [|c1 [|c2 [|c3 [|c4 u]]]]; simpl in Hu; try lia.
  simpl in H. injection H as -> -> -> -> _.
  by exists d, (u ++ v').
Qed.

Lemma no_digit_ahead_ext u v v' :
  u ≠ [] → no_digit_ahead (u ++ v) → no_digit_ahead (u ++ v').
Proof. by destruct u. Qed.

(** A block that ends the log, with or without a final newline, is still
    the block that the pattern matches when another header follows. *)
Lemma is_block_before_header b post x ds y rest :
  post = [] ∨ post = [newline] →
  is_block b post x ds y →
  is_block (b ++ post) (header_lit ++ rest) x ds (y ++ post).
Proof.
  intros Hpost [-> Hfirst [Hne Hds] Hlong Hb Hnear]. split.
  - by rewrite <-!(assoc_L (++)).
  - intros x1 x2 Hx Hx2 Htok.
    apply (Hfirst x1 x2 Hx Hx2).
    assert (∀ t, x2 ++ $"RAT" ++ ds ++ t = (x2 ++ $"RAT" ++ ds) ++ t) as E.
    { intros t. by rewrite <-!(assoc_L (++)). }
    rewrite E in Htok |- *. eapply token_at_ext; [|done].
    rewrite !length_app. destruct x2; [done|]. destruct ds; [done|].
    simpl. lia.
  - done.
  - destruct (decide (y ++ post = [])) as [E|E].
    + rewrite E. simpl. done.
    + apply (no_digit_ahead_ext (y ++ post) [] _ E).
      by rewrite (right_id_L [] (++)).
  - apply boundary_header.
  - intros y1 y2 Hy Hy2 Hbd. destruct Hpost as [-> | ->].
    + rewrite (right_id_L [] (++)) in Hy.
      apply boundary_before_header in Hbd; [|done].
      apply (Hnear y1 y2 Hy Hy2). by rewrite (right_id_L [] (++)).
    + destruct (exists_last Hy2) as (y2' & c & ->).
      rewrite (assoc_L (++)) in Hy. apply app_inj_tail in Hy as [-> <-].
      destruct y2' as [|d y2'].
      * destruct Hbd as [[r H]|[H|H]]; [|done|].
        -- unfold header_lit in H. simpl in H. discriminate H.
        -- unfold header_lit in H. simpl in H. discriminate H.
      * apply boundary_before_header in Hbd; [|done].
        by apply (Hnear y1 (d :: y2')).
Qed.

(** The rows that the loop body appends do not depend on the rows that
    are there already. *)
Lemma for_each_emit_prepend (name : str) (data : gmap str counts)
    (seqs : list str) (rows0 rows : list OutputRow) (t1 t2 : Z) :
  for_each (emit name data) (rows0 ++ rows, t1, t2) seqs =
  (λ st, (rows0 ++ st.1.1, st.1.2, st.2))
    <$> for_each (emit name data) (rows, t1, t2) seqs.
Proof.
  revert rows t1 t2. induction seqs as [|q seqs IH]; intros rows t1 t2; [done|].
  simpl. destruct (data !! q) as [c|]; [|done]. simpl.
  rewrite <-(assoc_L (++)). apply IH.
Qed.

Lemma process_block_prepend rows block :
  process_block rows block = (rows ++.) <$> process_block [] block.
Proof.
  unfold process_block.
  destruct (search sample_name_regex block) as [name|]; simpl.
  2:{ by rewrite (right_id_L [] (++)). }
  destruct (for_each accumulate ∅ (findall adapter_block_regex block))
    as [data|]; [|done]. simpl.
  rewrite <-(right_id_L [] (++) rows) at 1. rewrite for_each_emit_prepend.
  destruct (for_each (emit name data) ([], 0, 0) (sorted (keys data)))
    as [[[new t1] t2]|]; [|done]. simpl.
  destruct (sorted (keys data)); simpl; [done|].
  by rewrite <-(assoc_L (++)).
Qed.

Lemma for_each_process_block_prepend rows blocks :
  for_each process_block rows blocks
  = (rows ++.) <$> for_each process_block [] blocks.
Proof.
  revert rows. induction blocks as [|b blocks IH]; intros rows; simpl.
  { by rewrite (right_id_L [] (++)). }
  rewrite (process_block_prepend rows).
  destruct (process_block [] b) as [t|]; [|done]. simpl.
  rewrite (IH (rows ++ t)), (IH t).
  destruct (for_each process_block [] blocks) as [rest|]; [|done]. simpl.
  by rewrite <-(assoc_L (++)).
Qed.

Lemma self_contained_header A :
  self_contained A → ∃ rest, A = header_lit ++ rest.
Proof.
  intros (b & post & -> & _ & [_ (x & ds & y & [-> _ _ _ _ _])]
    %sample_split_match).
  eexists. by rewrite <-!(assoc_L (++)).
Qed.

Lemma no_block_in_final_newline post :
  post = [] ∨ post = [newline] → findall_from sample_split_regex 0 post = [].
Proof.
  intros [-> | ->].
  - apply findall_from_nil, sample_split_consuming.
  - simpl.
    destruct (match_at sample_split_regex [newline]) as [[g r]|] eqn:E.
    + apply sample_split_match in E as [E (x & ds & y & [-> _ _ _ _ _])].
      unfold header_lit in E. simpl in E. discriminate E.
    + done.
Qed.

Lemma self_contained_blocks A b post :
  A = b ++ post → post = [] ∨ post = [newline] →
  match_at sample_split_regex A = Some (b, post) →
  sample_blocks A = [b] ∧
  ∀ rest, sample_blocks (A ++ header_lit ++ rest)
          = A :: sample_blocks (header_lit ++ rest).
Proof.
  intros -> Hpost Hm.
  pose proof Hm as (a & Ha & Ea)%sample_split_consuming.
  apply app_inv_tail in Ea as <-.
  pose proof Hm as [_ (x & ds & y & Hb)]%sample_split_match. split.
  - unfold sample_blocks, findall.
    rewrite (findall_from_match _ b post b) by done.
    by rewrite no_block_in_final_newline.
  - intros rest. unfold sample_blocks, findall.
    apply (findall_from_match _ (b ++ post) (header_lit ++ rest)).
    { by destruct b. }
    apply sample_split_match. split; [done|].
    exists x, ds, (y ++ post). by apply is_block_before_header.
Qed.

(** ** The counts, record by record *)

Lemma findall_adapter_well_formed block :
  Forall well_formed (findall adapter_block_regex block).
Proof.
  apply Forall_forall. intros [[[g1 g2] g3] g4] Hg.
  apply elem_of_findall_adapter in Hg as (pre & m & post & _ & Hm).
  destruct Hm as (w1 & w2 & w3 & w4 & w5 & mid1 & w6 & mid2 & w7 & w8 &
    _ & Hg1 & _ & _ & _ & _ & _ & _ & _ & _ & _ & _ & Hg4).
  by split.
Qed.

Lemma add_count_well_formed g n c :
  well_formed g → int (g.2) = Some n →
  add_count (g.1.1.1) n c
  = Counts (read1 c + trimmed $"First" [g]) (read2 c + trimmed $"Second" [g]).
Proof.
  intros [Hg _] Hn. unfold add_count, trimmed, count_of. simpl. rewrite Hn. simpl.
  destruct Hg as [-> | ->].
  - rewrite decide_True by done. rewrite decide_True by done.
    rewrite decide_False by done. f_equal; lia.
  - rewrite decide_False by done. rewrite decide_False by done.
    rewrite decide_True by done. f_equal; lia.
Qed.

Lemma trimmed_cons which_read g l :
  trimmed which_read (g :: l) = trimmed which_read [g] + trimmed which_read l.
Proof. unfold trimmed. simpl. lia. Qed.

Lemma trimmed_app which_read l1 l2 :
  trimmed which_read (l1 ++ l2) = trimmed which_read l1 + trimmed which_read l2.
Proof.
  induction l1 as [|g l1 IH]; [done|].
  rewrite <-app_comm_cons, trimmed_cons, (trimmed_cons _ g l1), IH. lia.
Qed.

Lemma with_sequence_nil q l : q ∉ seq_of <$> l → with_sequence q l = [].
Proof.
  intros Hq. unfold with_sequence. induction l as [|g l IH]; [done|].
  rewrite fmap_cons, not_elem_of_cons in Hq. destruct Hq as [Hg Hl].
  rewrite filter_cons_False by done. by apply IH.
Qed.

(** The dictionary after the loop over the records: under every sequence
    that a record names, the sums of the counts of its records, read by
    read, on top of what was there. *)
Lemma for_each_accumulate_sums (data : gmap str counts) l :
  Forall (λ g, well_formed g ∧ readable g) l →
  ∃ data',
    for_each accumulate data l = Some data' ∧
    (∀ q, q ∈ seq_of <$> l →
          data' !! q =
          Some (Counts
                  (read1 (default (Counts 0 0) (data !! q))
                   + trimmed $"First" (with_sequence q l))
                  (read2 (default (Counts 0 0) (data !! q))
                   + trimmed $"Second" (with_sequence q l)))) ∧
    (∀ q, q ∉ seq_of <$> l → data' !! q = data !! q).
Proof.
  intros Hl. revert data.
  induction Hl as [|g l [Hg Hr] Hl IH]; intros data.
  { exists data. split_and!; [done| |done]. intros q Hq. by apply elem_of_nil in Hq. }
  destruct (int_digits (g.2)) as [n Hn]; [apply Hg|exact Hr|].
  rewrite for_each_cons, (accumulate_Some _ _ n Hn).
  rewrite (add_count_well_formed g n _ Hg Hn). cbn [mbind option_bind].
  set (c0 := default (Counts 0 0) (data !! seq_of g)).
  destruct (IH (<[seq_of g :=
      Counts (read1 c0 + trimmed $"First" [g])
             (read2 c0 + trimmed $"Second" [g])]> data))
    as (data' & -> & Hin & Hout).
  exists data'. split; [done|].
  assert (∀ q, q ≠ seq_of g → with_sequence q (g :: l) = with_sequence q l)
    as Hother.
  { intros q Hq. unfold with_sequence. by rewrite filter_cons_False. }
  assert (with_sequence (seq_of g) (g :: l) = g :: with_sequence (seq_of g) l)
    as Hsame.
  { unfold with_sequence. by rewrite filter_cons_True. }
  split.
  - intros q Hq. destruct (decide (q = seq_of g)) as [-> | Hne].
    + rewrite Hsame.
      rewrite (trimmed_cons $"First"), (trimmed_cons $"Second").
      destruct (decide (seq_of g ∈ seq_of <$> l)) as [Hl' | Hl'].
      * rewrite (Hin _ Hl'), lookup_insert_eq. simpl. fold c0.
        f_equal. f_equal; lia.
      * rewrite (Hout _ Hl'), lookup_insert_eq.
        rewrite (with_sequence_nil _ _ Hl'). fold c0.
        f_equal. f_equal; unfold trimmed at 2; simpl; lia.
    + rewrite fmap_cons, elem_of_cons in Hq. destruct Hq as [Hq | Hq]; [done|].
      rewrite (Hin _ Hq), lookup_insert_ne by done. by rewrite Hother.
  - intros q Hq. rewrite fmap_cons, not_elem_of_cons in Hq.
    destruct Hq as [Hne Hq]. rewrite (Hout _ Hq). by rewrite lookup_insert_ne.
Qed.

(** The counters after the loop over the records of a block. *)
Lemma adapter_data_sums l :
  Forall (λ g, well_formed g ∧ readable g) l →
  ∃ data,
    for_each accumulate ∅ l = Some data ∧
    (∀ q, q ∈ seq_of <$> l →
          data !! q = Some (Counts (trimmed $"First" (with_sequence q l))
                                   (trimmed $"Second" (with_sequence q l)))) ∧
    (∀ q, q ∉ seq_of <$> l → data !! q = None).
Proof.
  intros Hl.
  destruct (for_each_accumulate_sums ∅ l Hl) as (data & Hdata & Hin & Hout).
  exists data. split_and!; [done| |].
  - intros q Hq. rewrite (Hin q Hq), lookup_empty. simpl.
    by rewrite !Z.add_0_l.
  - intros q Hq. by rewrite (Hout q Hq), lookup_empty.
Qed.

Lemma sorted_Permutation (l1 l2 : list str) : l1 ≡ₚ l2 → sorted l1 = sorted l2.
Proof.
  intros H. unfold sorted. apply (Sorted_unique str_le).
  - apply Sorted_merge_sort, _.
  - apply Sorted_merge_sort, _.
  - by rewrite !merge_sort_Permutation.
Qed.

Lemma sorted_keys_distinct (data : gmap str counts) l :
  (∀ q, is_Some (data !! q) ↔ q ∈ seq_of <$> l) →
  sorted (keys data) = distinct_sequences l.
Proof.
  intros H. apply sorted_Permutation, NoDup_Permutation.
  - apply NoDup_fst_map_to_list.
  - apply NoDup_remove_dups.
  - intros q. by rewrite elem_of_keys, elem_of_remove_dups.
Qed.

Lemma emit_Some (name : str) (data : gmap str counts) rows t1 t2 q c :
  data !! q = Some c →
  emit name data (rows, t1, t2) q
  = Some (rows ++ [Row name q (read1 c) (read2 c) (read1 c + read2 c)],
          t1 + read1 c, t2 + read2 c).
Proof. intros H. unfold emit. by rewrite H. Qed.

Lemma for_each_emit_rows (name : str) (data : gmap str counts)
    (f : str → counts) (seqs : list str) (rows : list OutputRow) (t1 t2 : Z) :
  Forall (λ q, data !! q = Some (f q)) seqs →
  for_each (emit name data) (rows, t1, t2) seqs =
  Some (rows ++ ((λ q, Row name q (read1 (f q)) (read2 (f q))
                           (read1 (f q) + read2 (f q))) <$> seqs),
        t1 + foldr (λ q acc, read1 (f q) + acc) 0 seqs,
        t2 + foldr (λ q acc, read2 (f q) + acc) 0 seqs).
Proof.
  intros Hseqs. revert rows t1 t2.
  induction Hseqs as [|q seqs Hq _ IH]; intros rows t1 t2.
  { simpl. by rewrite (right_id_L [] (++)), !Z.add_0_r. }
  cbv beta in Hq.
  rewrite for_each_cons, (emit_Some _ _ _ _ _ _ _ Hq). cbn [mbind option_bind].
  rewrite IH, fmap_cons. cbn [foldr].
  rewrite <-(assoc_L (++)), <-!Z.add_assoc. reflexivity.
Qed.

Lemma sum_one_sequence (t : Z) (q0 : str) (seqs : list str) :
  NoDup seqs →
  foldr (λ q acc, (if decide (q0 = q) then t else 0) + acc) 0 seqs
  = if decide (q0 ∈ seqs) then t else 0.
Proof.
  induction 1 as [|q seqs Hq Hnd IH]; [done|]. cbn [foldr]. rewrite IH.
  destruct (decide (q0 = q)) as [-> | Hne].
  - rewrite (decide_True (P:=q ∈ q :: seqs)) by left.
    rewrite (decide_False (P:=q ∈ seqs)) by done. lia.
  - destruct (decide (q0 ∈ seqs)) as [Hin | Hin].
    + rewrite (decide_True (P:=q0 ∈ q :: seqs)) by by right. lia.
    + rewrite (decide_False (P:=q0 ∈ q :: seqs)); [lia|].
      by intros [? | ?]%elem_of_cons.
Qed.

(** Summed over the distinct sequences, the counts of the records of each
    sequence give the count of all records. *)
Lemma trimmed_by_sequence which_read (seqs : list str) l :
  NoDup seqs → (∀ g, g ∈ l → seq_of g ∈ seqs) →
  foldr (λ q acc, trimmed which_read (with_sequence q l) + acc) 0 seqs
  = trimmed which_read l.
Proof.
  intros Hnd. induction l as [|g l IH]; intros Hl.
  { clear. induction seqs as [|q seqs IH]; [done|]. cbn [foldr]. by rewrite IH. }
  rewrite (trimmed_cons _ g l), <-IH by (intros g' ?; apply Hl; by right).
  pose proof (sum_one_sequence (trimmed which_read [g]) (seq_of g) seqs Hnd)
    as Hone.
  rewrite decide_True in Hone by (apply Hl; left). rewrite <-Hone at 1.
  clear. induction seqs as [|q seqs IH]; [done|]. cbn [foldr]. rewrite IH.
  unfold with_sequence at 1.
  destruct (decide (seq_of g = q)) as [E | E].
  - rewrite filter_cons_True by done. rewrite trimmed_cons.
    fold (with_sequence q l). lia.
  - rewrite filter_cons_False by done. fold (with_sequence q l). lia.
Qed.

(** The loop body, in closed form. *)
Lemma process_block_table_of rows block name :
  search sample_name_regex block = Some name →
  Forall readable (findall adapter_block_regex block) →
  process_block rows block
  = Some (rows ++ table_of name (findall adapter_block_regex block)).
Proof.
  intros Hname Hread. unfold process_block. rewrite Hname.
  set (l := findall adapter_block_regex block).
  destruct (adapter_data_sums l) as (data & -> & Hin & Hout).
  { apply Forall_and. split; [apply findall_adapter_well_formed|done]. }
  cbn [mbind option_bind].
  assert (sorted (keys data) = distinct_sequences l) as ->.
  { apply sorted_keys_distinct. intros q. split.
    - intros Hq. destruct (decide (q ∈ seq_of <$> l)) as [|Hn]; [done|].
      rewrite (Hout q Hn) in Hq. by destruct Hq.
    - intros Hq. by rewrite (Hin q Hq). }
  assert (∀ q, q ∈ distinct_sequences l ↔ q ∈ seq_of <$> l) as Hmem.
  { intros q. unfold distinct_sequences.
    by rewrite elem_of_sorted, elem_of_remove_dups. }
  assert (NoDup (distinct_sequences l)) as Hnd.
  { unfold distinct_sequences, sorted. rewrite merge_sort_Permutation.
    apply NoDup_remove_dups. }
  rewrite (for_each_emit_rows name data
             (λ q, Counts (trimmed $"First" (with_sequence q l))
                          (trimmed $"Second" (with_sequence q l)))).
  2:{ apply Forall_forall. intros q Hq. apply Hin. by apply Hmem. }
  cbn [mbind option_bind read1 read2].
  rewrite !Z.add_0_l.
  rewrite !trimmed_by_sequence; try done.
  2,3: intros g Hg; apply Hmem, list_elem_of_fmap; by exists g.
  unfold table_of. destruct (distinct_sequences l) as [|q seqs]; simpl.
  - by rewrite (right_id_L [] (++)).
  - by rewrite <-(assoc_L (++)).
Qed.

(** It raises when the block has a name and a count that cannot be
    read. *)
Lemma process_block_closed rows block :
  process_block rows block =
  match search sample_name_regex block with
  | None => Some rows
  | Some name =>
      if decide (Forall readable (findall adapter_block_regex block))
      then Some (rows ++ table_of name (findall adapter_block_regex block))
      else None
  end.
Proof.
  destruct (search sample_name_regex block) as [name|] eqn:E.
  - destruct (decide _) as [Hr | Hr].
    + by apply process_block_table_of.
    + by apply (process_block_raises rows block name).
  - by apply process_block_unnamed.
Qed.

Lemma process_block_table_of_block rows block :
  Forall readable (findall adapter_block_regex block) →
  process_block rows block = Some (rows ++ table_of_block block).
Proof.
  intros Hr. unfold table_of_block.
  destruct (search sample_name_regex block) as [name|] eqn:E.
  - by apply process_block_table_of.
  - rewrite (right_id_L [] (++)). by apply process_block_unnamed.
Qed.

Lemma for_each_process_block_tables rows blocks :
  Forall (λ b, Forall readable (findall adapter_block_regex b)) blocks →
  for_each process_block rows blocks
  = Some (rows ++ concat (table_of_block <$> blocks)).
Proof.
  intros Hr. revert rows.
  induction Hr as [|b blocks Hb _ IH]; intros rows.
  { simpl. by rewrite (right_id_L [] (++)). }
  rewrite for_each_cons, process_block_table_of_block by done.
  cbn [mbind option_bind].
  rewrite IH, fmap_cons. cbn [concat]. by rewrite (assoc_L (++)).
Qed.

Lemma parse_rows_expected log :
  counts_readable log → parse_rows log = Some (expected_rows log).
Proof. apply for_each_process_block_tables. Qed.

(** [parse_rows], in closed form. *)
Lemma parse_rows_closed log :
  parse_rows log
  = if decide (counts_readable log) then Some (expected_rows log) else None.
Proof.
  destruct (decide (counts_readable log)) as [Hr | Hr].
  - by apply parse_rows_expected.
  - by apply parse_rows_raises.
Qed.

Lemma int_nonneg s n : int s = Some n → 0 ≤ n.
Proof.
  unfold int. destruct s as [|c s]; [done|].
  destruct (forallb is_digit (c :: s)) eqn:E; [|done].
  destruct (Z.of_nat (length (c :: s)) <=? max_str_digits); [|done].
  intros [= <-]. rewrite forallb_forall in E.
  assert (∀ l acc, (∀ d, d ∈ l → is_digit d = true) → 0 ≤ acc →
            0 ≤ fold_left (λ acc c, 10 * acc + digit_value c) l acc) as H.
  { clear. induction l as [|d l IH]; intros acc Hl Hacc; [done|].
    simpl. apply IH; [intros ? ?; apply Hl; by right|].
    assert (is_digit d = true) as Hd by (apply Hl; left).
    unfold is_digit, digit_value in *.
    apply andb_prop in Hd as [?%N.leb_le ?%N.leb_le]. lia. }
  change (0 ≤ fold_left (λ acc c, 10 * acc + digit_value c) (c :: s) 0).
  apply H; [|lia]. intros d Hd. by apply E, list_elem_of_In.
Qed.

Lemma trimmed_nonneg which_read l : 0 ≤ trimmed which_read l.
Proof.
  induction l as [|g l IH]; [done|]. rewrite trimmed_cons.
  assert (0 ≤ trimmed which_read [g]); [|lia].
  unfold trimmed, count_of. simpl.
  destruct (decide _); [|done].
  destruct (int (g.2)) as [n|] eqn:E; simpl; [|done].
  apply int_nonneg in E. lia.
Qed.

Lemma trimmed_Permutation which_read l l' :
  l ≡ₚ l' → trimmed which_read l = trimmed which_read l'.
Proof.
  induction 1 as [|g l l' _ IH|g g' l|l l' l'' _ IH1 _ IH2]; [done| | |congruence].
  - by rewrite (trimmed_cons _ g l), (trimmed_cons _ g l'), IH.
  - unfold trimmed. simpl. lia.
Qed.

Lemma table_of_Permutation name l l' :
  l ≡ₚ l' → table_of name l = table_of name l'.
Proof.
  intros H. unfold table_of.
  assert (distinct_sequences l = distinct_sequences l') as <-.
  { apply sorted_Permutation, NoDup_Permutation; [apply NoDup_remove_dups..|].
    intros q. by rewrite !elem_of_remove_dups, H. }
  assert (∀ label l l', l ≡ₚ l' →
            row_of_records name label l = row_of_records name label l') as Hrow.
  { intros label k k' Hk. unfold row_of_records.
    by rewrite (trimmed_Permutation $"First" k k' Hk),
               (trimmed_Permutation $"Second" k k' Hk). }
  destruct (distinct_sequences l) as [|q seqs]; [done|].
  f_equal.
  - apply list_fmap_ext. intros _ q' _. apply Hrow.
    unfold with_sequence. by rewrite H.
  - f_equal. by apply Hrow.
Qed.

(** ** The sample name of a block *)

Lemma search_skip {G} (re : pattern G) p q :
  (∀ p1 p2, p = p1 ++ p2 → p2 ≠ [] → match_at re (p2 ++ q) = None) →
  search re (p ++ q) = search re q.
Proof.
  induction p as [|c p IH]; intros Hp; [done|].
  assert (match_at re (c :: p ++ q) = None) as H0 by by apply (Hp [] (c :: p)).
  cbn [app search]. rewrite H0.
  apply IH. intros p1 p2 -> Hp2. by apply (Hp (c :: p1) p2).
Qed.

Lemma search_here {G} (re : pattern G) q g r :
  match_at re q = Some (g, r) → search re q = Some g.
Proof. intros H. destruct q; simpl; by rewrite H. Qed.

Lemma no_token_at_other_letter c t : c ≠ "R"%char → ¬ token_at (c :: t).
Proof. intros Hc (d & r & E & _). simpl in E. congruence. Qed.

Lemma sample_name_no_token t :
  ¬ token_at t → match_at sample_name_regex t = None.
Proof.
  intros H. unfold match_at, sample_name_regex, group. by apply token_cont_None.
Qed.

Lemma no_token_in_header h1 h2 t :
  header_lit = h1 ++ h2 → h2 ≠ [] → ¬ token_at (h2 ++ t).
Proof.
  intros E Hh2. destruct h2 as [|c h2]; [done|].
  apply no_token_at_other_letter.
  assert (Forall (λ c, c ≠ "R"%char) header_lit) as H.
  { apply (bool_decide_unpack _). vm_compute. exact I. }
  rewrite E, Forall_app, Forall_cons in H. apply H.
Qed.

Lemma boundary_no_digit post : boundary post → no_digit_ahead post.
Proof. by intros [[r ->] | [-> | ->]]. Qed.

(** The search for the sample name in a block finds the token that the
    segmentation pattern matched. *)
Lemma is_block_search b post x ds y :
  is_block b post x ds y →
  no_digit_ahead y ∧
  (∀ x1 x2, x = x1 ++ x2 → x2 ≠ [] → ¬ token_at (x2 ++ $"RAT" ++ ds ++ y)) ∧
  search sample_name_regex b = Some ($"RAT" ++ ds).
Proof.
  intros [-> Hfirst [Hds Hall] Hlong Hpost Hnear].
  assert (no_digit_ahead y) as Hy.
  { destruct y; [done|]. exact Hlong. }
  assert (∀ x1 x2, x = x1 ++ x2 → x2 ≠ [] →
            ¬ token_at (x2 ++ $"RAT" ++ ds ++ y)) as Hx.
  { intros x1 x2 E Hx2 Ht. apply (Hfirst x1 x2 E Hx2).
    replace (x2 ++ $"RAT" ++ ds ++ y ++ post)
      with ((x2 ++ $"RAT" ++ ds) ++ y ++ post)
      by (by rewrite <-!(assoc_L (++))).
    replace (x2 ++ $"RAT" ++ ds ++ y) with ((x2 ++ $"RAT" ++ ds) ++ y) in Ht
      by (by rewrite <-!(assoc_L (++))).
    apply (token_at_ext _ y); [|done].
    rewrite !length_app. destruct ds; [done|]. simpl. lia. }
  split_and!; [done..|].
  rewrite (assoc_L (++) header_lit x).
  rewrite search_skip.
  { apply (search_here _ _ _ y). by apply sample_name_match. }
  intros p1 p2 E Hp2. apply sample_name_no_token.
  (* the suffix [p2] starts in the header, or in [x] *)
  destruct (decide (length p1 < length header_lit)%nat) as [Hlt | Hge].
  - apply (f_equal (drop (length p1))) in E as E2.
    rewrite drop_app_le, drop_app_length in E2 by lia.
    pose proof (take_drop (length p1) header_lit) as Eh.
    rewrite <-E2, <-(assoc_L (++)).
    apply (no_token_in_header (take (length p1) header_lit)); [done|].
    intros Hnil. apply (f_equal length) in Hnil.
    rewrite length_drop in Hnil. simpl in Hnil, Hlt. lia.
  - apply (f_equal (drop (length header_lit))) in E as E2.
    rewrite drop_app_length, drop_app_le in E2 by lia.
    by apply (Hx (drop (length header_lit) p1) p2).
Qed.

(** ** The sequences of the rows *)

Lemma lstrip_suffix s : ∃ p, s = p ++ lstrip s ∧ all is_space p.
Proof.
  induction s as [|c s IH]; [exists []; split; [done|constructor]|].
  destruct IH as (p & IH & Hp). simpl.
  destruct (is_space c) eqn:E.
  - exists (c :: p). split; [simpl; f_equal; exact IH|by constructor].
  - exists []. split; [done|constructor].
Qed.

Lemma lstrip_head s c : head (lstrip s) = Some c → is_space c = false.
Proof.
  induction s as [|c' s IH]; [done|]. simpl.
  destruct (is_space c') eqn:E; [done|]. by intros [= <-].
Qed.

Lemma rstrip_prefix s : ∃ p, s = rstrip s ++ p ∧ all is_space p.
Proof.
  unfold rstrip. destruct (lstrip_suffix (rev s)) as (p & E & Hp).
  exists (rev p). split.
  - by rewrite <-rev_app_distr, <-E, rev_involutive.
  - unfold all in *. by apply Forall_rev.
Qed.

Lemma rstrip_last s c : last (rstrip s) = Some c → is_space c = false.
Proof.
  unfold rstrip. rewrite rev_alt. fold (reverse (lstrip (rev s))).
  rewrite last_reverse. apply lstrip_head.
Qed.

Lemma strip_no_blank_at_ends s : no_blank_at_ends (strip s).
Proof.
  unfold strip. split; [|apply rstrip_last].
  intros c Hc. destruct (rstrip_prefix (lstrip s)) as (p & E & _).
  apply (lstrip_head s). rewrite E.
  destruct (rstrip (lstrip s)); [done|]. exact Hc.
Qed.

Lemma strip_all P s : all P s → all P (strip s).
Proof.
  unfold strip, all. intros H.
  destruct (lstrip_suffix s) as (p1 & E1 & _).
  destruct (rstrip_prefix (lstrip s)) as (p2 & E2 & _).
  rewrite E1, E2, !Forall_app in H. apply H.
Qed.

Lemma findall_adapter_sequence block g :
  g ∈ findall adapter_block_regex block →
  all not_semicolon (seq_of g) ∧ no_blank_at_ends (seq_of g).
Proof.
  destruct g as [[[g1 g2] g3] g4]. intros Hg.
  apply elem_of_findall_adapter in Hg as (pre & m & post & _ & Hm).
  destruct Hm as (w1 & w2 & w3 & w4 & w5 & mid1 & w6 & mid2 & w7 & w8 &
    _ & _ & _ & _ & _ & _ & _ & _ & _ & _ & _ & [_ Hg3] & _).
  split; [by apply strip_all|apply strip_no_blank_at_ends].
Qed.

(** ** The frame and the CSV *)

Lemma row_dict_cells r :
  map (dict_get (row_dict r)) column_names = Some <$> csv_record r.
Proof. reflexivity. Qed.

(** The values of a frame of rows, row by row. *)
Lemma make_frame_values r rows :
  values (make_frame (row_dict <$> r :: rows))
  = (λ r, Some <$> csv_record r) <$> r :: rows.
Proof.
  unfold make_frame. cbn [values].
  change (fold_left add_keys (row_dict <$> r :: rows) [])
    with (columns (make_frame (row_dict <$> r :: rows))).
  rewrite make_frame_columns.
  generalize (r :: rows). intros l. induction l as [|r' l IH]; [done|].
  rewrite !fmap_cons. cbn [map]. rewrite row_dict_cells. f_equal. exact IH.
Qed.

(** The writer takes the record of a row when its numbers can be
    written, and raises otherwise. *)
Lemma csv_fields_of_row r :
  mapM csv_field (Some <$> csv_record r)
  = if decide (printable r) then Some (csv_record r) else None.
Proof.
  unfold csv_record. destruct r as [name q r1 r2 t].
  cbn [sample_name adapter_sequence trimmed_read1 trimmed_read2 total_trimmed
       fmap list_fmap mapM csv_field].
  destruct (decide _) as [(H1 & H2 & H3) | Hn].
  - cbn [trimmed_read1 trimmed_read2 total_trimmed] in H1, H2, H3.
    by rewrite H1, H2, H3.
  - destruct (str_ok r1) eqn:H1, (str_ok r2) eqn:H2, (str_ok t) eqn:H3;
      try done.
    by destruct Hn.
Qed.

Lemma csv_records_of_rows l :
  mapM (mapM csv_field) ((λ r, Some <$> csv_record r) <$> l)
  = if decide (Forall printable l) then Some (csv_record <$> l) else None.
Proof.
  induction l as [|r l IH].
  { by rewrite decide_True by constructor. }
  rewrite fmap_cons. cbn [mapM]. rewrite csv_fields_of_row, IH.
  destruct (decide (printable r)) as [Hr | Hr]; cbn [mbind option_bind].
  - destruct (decide (Forall printable l)) as [Hl | Hl];
      cbn [mbind option_bind mret option_ret].
    + by rewrite decide_True by by constructor.
    + rewrite decide_False; [done|]. by intros [_ ?]%Forall_cons.
  - rewrite decide_False; [done|]. by intros [? _]%Forall_cons.
Qed.

Lemma to_csv_make_frame r rows :
  to_csv (make_frame (row_dict <$> r :: rows))
  = if decide (Forall printable (r :: rows))
    then Some ((CStr <$> column_names) :: (csv_record <$> r :: rows))
    else None.
Proof.
  unfold to_csv.
  rewrite make_frame_columns, make_frame_values, csv_records_of_rows.
  by destruct (decide _).
Qed.

(** ** Where a sample block can begin *)

Lemma header_at_app u t : header_at u → header_at (u ++ t).
Proof.
  intros [r Hr]. apply strip_prefix_Some in Hr as ->.
  exists (r ++ t). apply strip_prefix_Some. by rewrite (assoc_L (++)).
Qed.

Lemma header_at_newline u : header_at (u ++ [newline]) → header_at u.
Proof.
  unfold header_at. rewrite strip_prefix_newline.
  - by intros [r Hr]%fmap_is_Some.
  - apply (bool_decide_unpack _). vm_compute. exact I.
Qed.

Lemma boundary_header_at r :
  boundary r ↔ header_at r ∨ r = [] ∨ r = [newline].
Proof.
  unfold boundary, header_at. split.
  - intros [[r' ->] | H]; [left|by right]. exists r'. apply strip_prefix_app.
  - intros [[r' H%strip_prefix_Some] | H]; [left; by exists r'|by right].
Qed.

Lemma boundary_inside u rest :
  u ≠ [] → boundary (u ++ header_lit ++ rest) → header_at u.
Proof.
  intros Hu [H | [H | H]]%boundary_header_at.
  - by apply (header_no_overlap u rest).
  - by destruct u.
  - destruct u as [|c [|c' u]]; [done|discriminate H..].
Qed.

Lemma snoc_case {A} (l : list A) : l = [] ∨ ∃ l' a, l = l' ++ [a].
Proof. destruct l as [|a l _] using rev_ind; [by left|right; eauto]. Qed.

Local Opaque list_ascii_of_string.

(** The pattern matches at the start of a text exactly when the text
    begins with the header text and holds a sample token after it. *)
Lemma sample_split_is_Some s :
  is_Some (match_at sample_split_regex s) ↔ block_start s.
Proof.
  unfold block_start.
  split.
  - intros [[g r] [-> (x & ds & y & Hb)]%sample_split_match].
    destruct Hb as [-> _ [Hds Hall] _ _ _].
    destruct ds as [|d ds]; [done|].
    exists x, d, (ds ++ y ++ r). split.
    + by rewrite <-!(assoc_L (++)).
    + by apply Forall_cons in Hall as [? _].
  - intros (x & d & r & -> & Hd).
    rewrite sample_split_unfold, lit_app.
    set (s := header_lit ++ _).
    assert (∀ (K : @cont (str * str)) p q,
              is_Some (K q) → is_Some (lazy_dot K (p ++ q))) as Hlazy.
    { intros K p q HK. induction p as [|c p IH].
      - destruct HK as [v HK]. exists v. by apply lazy_dot_here.
      - simpl. destruct (K (c :: p ++ q)); [done|apply IH]. }
    apply Hlazy. rewrite lit_app, plus_total by (done || apply split_end_total).
    apply split_end_total.
Qed.

Local Transparent list_ascii_of_string.

Lemma sample_split_newline_None s :
  match_at sample_split_regex s = None →
  match_at sample_split_regex (s ++ [newline]) = None.
Proof.
  intros Hs. apply eq_None_not_Some. intros (x & d & r & E & Hd)%sample_split_is_Some.
  assert (is_Some (match_at sample_split_regex s)) as [? ?]; [|congruence].
  apply sample_split_is_Some.
  destruct (snoc_case r) as [-> | (r' & a & ->)].
  - replace (header_lit ++ x ++ $"RAT" ++ [d])
      with ((header_lit ++ x ++ $"RAT") ++ [d]) in E
      by (by rewrite <-!(assoc_L (++))).
    apply app_inj_tail in E as [_ <-]. done.
  - replace (header_lit ++ x ++ $"RAT" ++ d :: r' ++ [a])
      with ((header_lit ++ x ++ $"RAT" ++ d :: r') ++ [a]) in E
      by (by rewrite <-!(assoc_L (++))).
    apply app_inj_tail in E as [-> _]. by exists x, d, r'.
Qed.

(** ** A newline at the end of the log *)

Local Opaque list_ascii_of_string.

Lemma token_at_behind x2 ds v v' :
  ds ≠ [] →
  token_at (x2 ++ $"RAT" ++ ds ++ v) → token_at (x2 ++ $"RAT" ++ ds ++ v').
Proof.
  intros Hds Ht.
  replace (x2 ++ $"RAT" ++ ds ++ v') with ((x2 ++ $"RAT" ++ ds) ++ v')
    by (by rewrite <-!(assoc_L (++))).
  replace (x2 ++ $"RAT" ++ ds ++ v) with ((x2 ++ $"RAT" ++ ds) ++ v) in Ht
    by (by rewrite <-!(assoc_L (++))).
  apply (token_at_ext _ v); [|done].
  rewrite !length_app. destruct ds; [done|].
  change (length $"RAT") with 3%nat. simpl. lia.
Qed.

(** The block before a header does not depend on what follows the header. *)
Lemma is_block_behind_header b rest rest' x ds y :
  is_block b (header_lit ++ rest) x ds y →
  is_block b (header_lit ++ rest') x ds y.
Proof.
  intros [Ht Hfirst [Hds Hall] Hlong Hpost Hnear]. split; try done.
  - intros x1 x2 E Hx2 Htok. apply (Hfirst x1 x2 E Hx2).
    by apply (token_at_behind _ _ (y ++ header_lit ++ rest')).
  - destruct y; [done|exact Hlong].
  - apply boundary_header.
  - intros y1 y2 E Hy2 Hb. apply (Hnear y1 y2 E Hy2).
    apply boundary_header_at. left.
    by apply header_at_app, (boundary_inside y2 rest').
Qed.

(** The block at the end of the text, when a newline is put behind it. *)
Lemma is_block_end_newline b x ds y :
  is_block b [] x ds y → is_block b [newline] x ds y.
Proof.
  intros [Ht Hfirst [Hds Hall] Hlong Hpost Hnear]. split; try done.
  - intros x1 x2 E Hx2 Htok. apply (Hfirst x1 x2 E Hx2).
    by apply (token_at_behind _ _ (y ++ [newline])).
  - destruct y; [done|exact Hlong].
  - by right; right.
  - intros y1 y2 E Hy2 [H | [H | H]]%boundary_header_at.
    + apply (Hnear y1 y2 E Hy2). rewrite (right_id_L [] (++)).
      apply boundary_header_at. left. by apply header_at_newline.
    + by destruct y2.
    + destruct y2 as [|c [|c' y2]]; [done|discriminate H..].
Qed.

(** The block before the newline that ends the text, when a second
    newline is put behind: the first newline joins the block. *)
Lemma is_block_newline_newline b x ds y :
  is_block b [newline] x ds y →
  is_block (b ++ [newline]) [newline] x ds (y ++ [newline]).
Proof.
  intros [Ht Hfirst [Hds Hall] Hlong Hpost Hnear]. split; try done.
  - rewrite Ht. by rewrite <-!(assoc_L (++)).
  - intros x1 x2 E Hx2 Htok. apply (Hfirst x1 x2 E Hx2).
    by apply (token_at_behind _ _ ((y ++ [newline]) ++ [newline])).
  - destruct y; [done|exact Hlong].
  - intros y1 y2 E Hy2 Hb.
    destruct (snoc_case y2) as [-> | (y2' & a & ->)]; [done|].
    rewrite (assoc_L (++)) in E. apply app_inj_tail in E as [-> <-].
    apply boundary_header_at in Hb as [H | [H | H]].
    + apply header_at_newline in H.
      destruct y2' as [|c y2'].
      * destruct H as [r H]. discriminate H.
      * apply (Hnear y1 (c :: y2')); [done..|].
        by apply boundary_header_at; left.
    + by destruct y2'.
    + destruct y2' as [|c [|c' y2']]; discriminate H.
Qed.

Local Transparent list_ascii_of_string.

Lemma sample_split_newline s g r :
  match_at sample_split_regex s = Some (g, r) →
  match_at sample_split_regex (s ++ [newline])
  = if decide (r = [newline]) then Some (g ++ [newline], [newline])
    else Some (g, r ++ [newline]).
Proof.
  intros [-> (x & ds & y & Hb)]%sample_split_match.
  destruct (decide (r = [newline])) as [-> | Hr].
  - apply sample_split_match. split; [by rewrite <-!(assoc_L (++))|].
    exists x, ds, (y ++ [newline]). by apply is_block_newline_newline.
  - apply sample_split_match. split; [by rewrite <-!(assoc_L (++))|].
    exists x, ds, y.
    destruct (blk_boundary _ _ _ _ _ Hb) as [[r' ->] | [-> | ->]]; [| |done].
    + rewrite <-(assoc_L (++)). by apply (is_block_behind_header _ r').
    + by apply is_block_end_newline.
Qed.

(** The blocks of a log with a newline put behind are the blocks of the
    log, where the last one may have gained the newline. *)
Lemma sample_blocks_final_newline s :
  Forall2 (λ b' b, b' = b ∨ b' = b ++ [newline])
          (findall_from sample_split_regex 0 (s ++ [newline]))
          (findall_from sample_split_regex 0 s).
Proof.
  assert (∀ n s, (length s ≤ n)%nat →
            Forall2 (λ b' b, b' = b ∨ b' = b ++ [newline])
                    (findall_from sample_split_regex 0 (s ++ [newline]))
                    (findall_from sample_split_regex 0 s)) as Hscan;
    [|by apply (Hscan (length s))].
  clear s. induction n as [|n IH]; intros s Hn.
  { destruct s; [|simpl in Hn; lia]. cbn [app].
    rewrite (no_block_in_final_newline [newline]) by by right.
    rewrite (no_block_in_final_newline []) by by left. constructor. }
  destruct s as [|c s].
  { cbn [app].
    rewrite (no_block_in_final_newline [newline]) by by right.
    rewrite (no_block_in_final_newline []) by by left. constructor. }
  destruct (match_at sample_split_regex (c :: s)) as [[g r]|] eqn:E.
  - pose proof (sample_split_newline _ _ _ E) as E'.
    pose proof E as (a & Ha & Hs)%sample_split_consuming.
    pose proof E as [Hs' _]%sample_split_match.
    assert (a = g) as -> by (apply (app_inv_tail r); congruence).
    assert (length r ≤ n)%nat as Hr.
    { apply (f_equal length) in Hs. rewrite length_app in Hs.
      destruct g; [done|]. simpl in *. lia. }
    rewrite Hs in E, E' |- *.
    rewrite (findall_from_match _ g r g) by done.
    destruct (decide (r = [newline])) as [-> | Hne].
    + rewrite <-(assoc_L (++)) in E' |- *.
      replace (g ++ [newline] ++ [newline]) with ((g ++ [newline]) ++ [newline])
        in E' |- * by (by rewrite <-(assoc_L (++))).
      rewrite (findall_from_match _ (g ++ [newline]) [newline] (g ++ [newline]));
        [|by destruct g|done].
      constructor; [by right|].
      rewrite (no_block_in_final_newline [newline]) by by right. constructor.
    + rewrite <-(assoc_L (++)) in E' |- *.
      rewrite (findall_from_match _ g (r ++ [newline]) g) by done.
      constructor; [by left|]. by apply IH.
  - pose proof (sample_split_newline_None _ E) as E'.
    change ((c :: s) ++ [newline]) with (c :: (s ++ [newline])) in E' |- *.
    cbn [findall_from]. rewrite E, E'. apply IH. simpl in Hn. lia.
Qed.

Lemma for_each_process_block_newline rows blocks' blocks :
  Forall2 (λ b' b, b' = b ∨ b' = b ++ [newline]) blocks' blocks →
  for_each process_block rows blocks' = for_each process_block rows blocks.
Proof.
  intros H. revert rows.
  induction H as [|b' b blocks' blocks Hb _ IH]; intros rows; [done|].
  rewrite !for_each_cons.
  assert (process_block rows b' = process_block rows b) as ->.
  { destruct Hb as [-> | ->]; [done|apply process_block_final_newline]. }
  destruct (process_block rows b) as [rows'|]; [|done]. apply IH.
Qed.

(** ** Text in which no block begins *)

Section Gaps.
Context {G : Type} (re : pattern G).

Lemma findall_from_gap p s :
  (∀ p1 p2, p = p1 ++ p2 → p2 ≠ [] → match_at re (p2 ++ s) = None) →
  findall_from re 0 (p ++ s) = findall_from re 0 s.
Proof.
  induction p as [|c p IH]; intros Hp; [done|].
  assert (match_at re (c :: p ++ s) = None) as H0 by by apply (Hp [] (c :: p)).
  cbn [app findall_from]. rewrite H0.
  apply IH. intros p1 p2 -> Hp2. by apply (Hp (c :: p1) p2).
Qed.

Lemma findall_from_nil_inv p q :
  findall_from re 0 (p ++ q) = [] → match_at re q = None.
Proof.
  induction p as [|c p IH]; cbn [app].
  - destruct q as [|c q]; cbn [findall_from];
      by destruct (match_at re _) as [[g r]|].
  - cbn [findall_from].
    destruct (match_at re (c :: p ++ q)) as [[g r]|]; [done|]. apply IH.
Qed.
End Gaps.

Lemma occursb_false l p q :
  occursb l (p ++ q) = false → strip_prefix l q = None.
Proof.
  induction p as [|c p IH]; cbn [app].
  - destruct q as [|c q]; cbn [occursb]; by destruct (strip_prefix l _).
  - cbn [occursb]. destruct (strip_prefix l (c :: p ++ q)); [done|]. apply IH.
Qed.

Lemma sample_split_header_at s :
  is_Some (match_at sample_split_regex s) → header_at s.
Proof.
  intros (x & d & r & -> & _)%sample_split_is_Some.
  eexists. apply strip_prefix_app.
Qed.

(** ** The engine: what a piece takes when the rest matches *)

Section Greedy.
Context {R : Type}.
Implicit Types (k : @cont R) (s r a l : str) (x : R) (P : ascii → bool).

Lemma star_longest P k a r x :
  all P a → stops P r → k r = Some x → star P k (a ++ r) = Some x.
Proof.
  intros Ha Hr Hk. induction Ha as [|c a Hc _ IH]; cbn [app].
  - destruct r as [|c r]; [done|]. simpl in Hr |- *. by rewrite Hr.
  - cbn [star]. by rewrite Hc, IH.
Qed.

Lemma plus_longest P k a r x :
  a ≠ [] → all P a → stops P r → k r = Some x → plus P k (a ++ r) = Some x.
Proof.
  intros Hne Ha Hr Hk. destruct a as [|c a]; [done|].
  apply Forall_cons in Ha as [Hc Ha]. cbn [app plus]. rewrite Hc.
  by apply star_longest.
Qed.

Lemma take_matched a r : take (length (a ++ r) - length r) (a ++ r) = a.
Proof.
  rewrite length_app.
  replace (length a + length r - length r)%nat with (length a) by lia.
  by rewrite take_app_length.
Qed.

Lemma group_plus_longest P (kg : str → @cont R) a r x :
  a ≠ [] → all P a → stops P r → kg a r = Some x →
  group (plus P) kg (a ++ r) = Some x.
Proof.
  intros Hne Ha Hr Hk. unfold group.
  apply plus_longest; [done..|]. by rewrite take_matched.
Qed.

Lemma group_here (m : @cont R → @cont R) (kg : str → @cont R) a r :
  (∀ k, m k (a ++ r) = k r) → group m kg (a ++ r) = kg a r.
Proof. intros Hm. unfold group. by rewrite Hm, take_matched. Qed.

Lemma lazy_dot_first k a r x :
  (∀ a1 a2, a = a1 ++ a2 → a2 ≠ [] → k (a2 ++ r) = None) →
  k r = Some x → lazy_dot k (a ++ r) = Some x.
Proof. intros Ha Hk. rewrite lazy_dot_skip by done. by apply lazy_dot_here. Qed.

Lemma lit_None l k s : strip_prefix l s = None → lit l k s = None.
Proof. intros H. unfold lit. by rewrite H. Qed.
End Greedy.

Lemma first_or_second {R} (k : @cont R) g1 r :
  g1 = $"First" ∨ g1 = $"Second" →
  alt (lit $"First") (lit $"Second") k (g1 ++ r) = k r.
Proof.
  intros [-> | ->]; unfold alt.
  - rewrite lit_app. by destruct (k r).
  - rewrite (lit_None $"First") by reflexivity. by rewrite lit_app.
Qed.

(** Neither [Sequence:] nor [Trimmed:] overlaps itself. *)
Lemma sequence_no_overlap u rest :
  u ≠ [] → is_Some (strip_prefix $"Sequence:" (u ++ $"Sequence:" ++ rest)) →
  is_Some (strip_prefix $"Sequence:" u).
Proof.
  intros Hne [r H]. destruct u as [|c u]; [done|]. clear Hne.
  simpl list_ascii_of_string in *.
  simpl in H |- *. case_decide; [subst|discriminate H].
  do 8 (destruct u as [|? u];
        [ vm_compute in H; discriminate H
        | simpl in H |- *; case_decide; [subst|discriminate H] ]).
  by eexists.
Qed.

Lemma trimmed_no_overlap u rest :
  u ≠ [] → is_Some (strip_prefix $"Trimmed:" (u ++ $"Trimmed:" ++ rest)) →
  is_Some (strip_prefix $"Trimmed:" u).
Proof.
  intros Hne [r H]. destruct u as [|c u]; [done|]. clear Hne.
  simpl list_ascii_of_string in *.
  simpl in H |- *. case_decide; [subst|discriminate H].
  do 7 (destruct u as [|? u];
        [ vm_compute in H; discriminate H
        | simpl in H |- *; case_decide; [subst|discriminate H] ]).
  by eexists.
Qed.

(** ** A section as Cutadapt writes it *)

Lemma digit_not_space d : is_digit d = true → is_space d = false.
Proof.
  unfold is_digit, is_space. intros Hd. apply not_true_is_false. intros Hs.
  apply andb_prop in Hd as [?%N.leb_le ?%N.leb_le].
  apply orb_prop in Hs as [[[Hs | Hs]%orb_prop | Hs]%orb_prop | Hs].
  - apply andb_prop in Hs as [?%N.leb_le ?%N.leb_le]. lia.
  - apply andb_prop in Hs as [?%N.leb_le ?%N.leb_le]. lia.
  - apply N.eqb_eq in Hs. lia.
  - apply N.eqb_eq in Hs. lia.
Qed.

Lemma space_not_digit c : is_space c = true → is_digit c = false.
Proof.
  intros Hs. destruct (is_digit c) eqn:Hd; [|done].
  apply digit_not_space in Hd. congruence.
Qed.

Local Opaque list_ascii_of_string.

Lemma section_text_match w1 g1 w2 w3 w4 g2 w5 mid1 w6 g3 mid2 w7 g4 w8 rest :
  g1 = $"First" ∨ g1 = $"Second" →
  blank w1 → blank w2 → blank w3 → blank w4 → blank w5 →
  all is_space w6 → blank w7 → blank w8 →
  digits g2 → digits g4 →
  g3 ≠ [] → all not_semicolon g3 → stops is_space g3 →
  occursb $"Sequence:" mid1 = false → occursb $"Trimmed:" mid2 = false →
  match_at adapter_block_regex
    (section_text w1 g1 w2 w3 w4 g2 w5 mid1 w6 g3 mid2 w7 g4 w8 ++ rest)
  = Some ((g1, g2, g3, g4), rest).
Proof.
  intros Hg1 [? ?] [? ?] [? ?] [? ?] [? ?] ? [? ?] [? ?] [? Hg2] [? Hg4]
    ? ? Hg3 Hmid1 Hmid2.
  assert (∀ t, stops is_space (g1 ++ t)) as Sg1 by by destruct Hg1 as [-> | ->].
  assert (∀ t, stops is_space (g2 ++ t)) as Sg2.
  { intros t. destruct g2 as [|d g2]; [done|].
    apply Forall_cons in Hg2 as [Hd _]. by apply digit_not_space. }
  assert (∀ t, stops is_space (g4 ++ t)) as Sg4.
  { intros t. destruct g4 as [|d g4]; [done|].
    apply Forall_cons in Hg4 as [Hd _]. by apply digit_not_space. }
  assert (∀ w t, blank w → stops is_digit (w ++ t)) as Sw.
  { intros w t [Hw Hall]. destruct w as [|c w]; [done|].
    apply Forall_cons in Hall as [Hc _]. by apply space_not_digit. }
  assert (∀ t, stops is_space (g3 ++ t)) as Sg3 by by destruct g3.
  unfold section_text, match_at, adapter_block_regex.
  rewrite <-!(assoc_L (++)).
  rewrite lit_app. apply plus_longest; [done..|].
  rewrite group_here by (intros k; by apply first_or_second).
  apply plus_longest; [done..|].
  rewrite lit_app. apply plus_longest; [done..|].
  rewrite lit_app. apply plus_longest; [done..|].
  apply group_plus_longest; [done|done|by apply Sw|].
  apply plus_longest; [done..|].
  rewrite lit_app. apply lazy_dot_first.
  { intros a1 a2 -> Ha2. apply lit_None, eq_None_not_Some.
    intros Hs%sequence_no_overlap; [|done].
    apply occursb_false in Hmid1. rewrite Hmid1 in Hs. by destruct Hs. }
  rewrite lit_app. apply star_longest; [done..|].
  apply group_plus_longest; [done..|].
  rewrite lit_app. apply lazy_dot_first.
  { intros a1 a2 -> Ha2. apply lit_None, eq_None_not_Some.
    intros Hs%trimmed_no_overlap; [|done].
    apply occursb_false in Hmid2. rewrite Hmid2 in Hs. by destruct Hs. }
  rewrite lit_app. apply plus_longest; [done..|].
  apply group_plus_longest; [done|done|by apply Sw|].
  apply plus_longest; [done..|].
  by rewrite lit_app.
Qed.

Local Transparent list_ascii_of_string.

Local Opaque list_ascii_of_string.

Lemma adapter_match_header t :
  is_Some (match_at adapter_block_regex t) → section_header_at t = true.
Proof.
  intros [[[[[g1 g2] g3] g4] r] (m & -> & Hm)%adapter_match_inv].
  destruct Hm as (w1 & w2 & w3 & w4 & w5 & mid1 & w6 & mid2 & w7 & w8 &
    -> & Hg1 & [Hne Hw1] & _).
  unfold section_header_at. rewrite <-!(assoc_L (++)), strip_prefix_app.
  destruct (run_app_stop is_space w1 (g1 ++ w2 ++ $"read:" ++ w3 ++
    $"Adapter" ++ w4 ++ g2 ++ w5 ++ $"===" ++ mid1 ++ $"Sequence:" ++ w6 ++
    g3 ++ $";" ++ mid2 ++ $"Trimmed:" ++ w7 ++ g4 ++ w8 ++ $"times" ++ r))
    as [-> ->]; [done|by destruct Hg1 as [-> | ->]|].
  rewrite bool_decide_false by done.
  destruct Hg1 as [-> | ->]; rewrite strip_prefix_app.
  - by rewrite bool_decide_true.
  - rewrite (bool_decide_true (is_Some (Some _))) by done.
    by rewrite orb_true_r.
Qed.

Local Transparent list_ascii_of_string.

Lemma section_header_in_false pre follow p u :
  section_header_in pre follow = false → pre = p ++ u → u ≠ [] →
  section_header_at (u ++ follow) = false.
Proof.
  intros H -> Hu. induction p as [|c p IH].
  - destruct u as [|c u]; [done|]. cbn [app section_header_in] in H.
    by apply orb_false_elim in H as [? _].
  - apply IH. cbn [app section_header_in] in H.
    by apply orb_false_elim in H as [_ ?].
Qed.

(** ** Records that count the same *)

Lemma trimmed_same_count which_read l l' :
  Forall2 same_count l l' → trimmed which_read l = trimmed which_read l'.
Proof.
  induction 1 as [|g g' l l' (Hg1 & _ & Hn) _ IH]; [done|].
  rewrite (trimmed_cons _ g), (trimmed_cons _ g'), IH. f_equal.
  unfold trimmed, count_of. simpl. by rewrite Hg1, Hn.
Qed.

Lemma with_sequence_same_count q l l' :
  Forall2 same_count l l' →
  Forall2 same_count (with_sequence q l) (with_sequence q l').
Proof.
  unfold with_sequence.
  induction 1 as [|g g' l l' Hg _ IH]; [constructor|].
  pose proof Hg as (_ & Hq & _).
  destruct (decide (seq_of g = q)) as [E | E].
  - rewrite !filter_cons_True by congruence. by constructor.
  - rewrite !filter_cons_False by congruence. done.
Qed.

Lemma table_of_same_count name l l' :
  Forall2 same_count l l' → table_of name l = table_of name l'.
Proof.
  intros H. unfold table_of.
  assert (seq_of <$> l = seq_of <$> l') as Hseq.
  { induction H as [|g g' l l' (_ & Hq & _) _ IH]; [done|].
    by rewrite !fmap_cons, Hq, IH. }
  unfold distinct_sequences. rewrite <-Hseq.
  assert (∀ label k k', Forall2 same_count k k' →
            row_of_records name label k = row_of_records name label k') as Hrow.
  { intros label k k' Hk. unfold row_of_records.
    by rewrite (trimmed_same_count $"First" k k' Hk),
               (trimmed_same_count $"Second" k k' Hk). }
  destruct (sorted _) as [|q seqs]; [done|]. f_equal.
  - apply list_fmap_ext. intros _ q' _. by apply Hrow, with_sequence_same_count.
  - f_equal. by apply Hrow.
Qed.

(** ** The scan for blocks *)

Lemma no_block_start s :
  ¬ block_start s ↔ match_at sample_split_regex s = None.
Proof. by rewrite <-sample_split_is_Some, eq_None_not_Some. Qed.

Lemma Scanned_skip c s bs :
  ¬ block_start (c :: s) → Scanned s bs → Scanned (c :: s) bs.
Proof.
  intros Hc H. destruct H as [rest Hrest | gap b post bs x ds y Hgap Hb Hpost].
  - constructor. intros [|c' p] q E.
    + simpl in E. by subst q.
    + injection E as _ E. by apply (Hrest p q).
  - apply (Scanned_block (c :: gap) b post bs x ds y); [|done..].
    intros [|c' p] u E Hu.
    + simpl in E. by subst u.
    + injection E as _ E. by apply (Hgap p u).
Qed.

Lemma Scanned_sample_blocks s : Scanned s (findall_from sample_split_regex 0 s).
Proof.
  assert (∀ n s, (length s ≤ n)%nat →
            Scanned s (findall_from sample_split_regex 0 s)) as Hscan;
    [|by apply (Hscan (length s))].
  assert (Scanned [] (findall_from sample_split_regex 0 [])) as Hnil.
  { rewrite findall_from_nil by apply sample_split_consuming.
    constructor. intros p q E (x & d & r & -> & _).
    apply (f_equal length) in E. rewrite !length_app in E.
    unfold header_lit in E. simpl in E. lia. }
  clear s. induction n as [|n IH]; intros s Hn.
  { destruct s; [done|simpl in Hn; lia]. }
  destruct s as [|c s]; [done|].
  destruct (match_at sample_split_regex (c :: s)) as [[g r]|] eqn:E.
  - pose proof E as [Hs (x & ds & y & Hb)]%sample_split_match.
    pose proof E as (a & Ha & Hs')%sample_split_consuming.
    assert (a = g) as -> by (apply (app_inv_tail r); congruence).
    rewrite Hs in E |- *.
    rewrite (findall_from_match _ g r g) by done.
    apply (Scanned_block [] g r _ x ds y); [|done|].
    + intros p u Ep Hu. by destruct p, u.
    + apply IH. apply (f_equal length) in Hs.
      rewrite length_app in Hs. simpl in *. destruct g; [done|]. simpl in *. lia.
  - cbn [findall_from]. rewrite E. apply Scanned_skip; [by apply no_block_start|].
    apply IH. simpl in Hn. lia.
Qed.

Lemma Scanned_unique s bs :
  Scanned s bs → findall_from sample_split_regex 0 s = bs.
Proof.
  induction 1 as [rest Hrest | gap b post bs x ds y Hgap Hb _ IH].
  - rewrite <-(right_id_L [] (++) rest). rewrite findall_from_gap.
    + apply findall_from_nil, sample_split_consuming.
    + intros p1 p2 -> _. rewrite (right_id_L [] (++)).
      by apply no_block_start, (Hrest p1 p2).
  - rewrite findall_from_gap.
    + rewrite (findall_from_match _ b post b), IH; [done| |].
      * destruct Hb as [-> _ _ _ _ _]. unfold header_lit. by simpl.
      * apply sample_split_match. split; [done|]. by exists x, ds, y.
    + intros p1 p2 E Hp2. by apply no_block_start, (Hgap p1 p2).
Qed.

(** ** The run of the script *)

Lemma int64_str_ok z : int64 z → str_ok z = true.
Proof.
  intros Hz. unfold int64 in Hz.
  assert (2 ^ 63 < str_limit) as Hlim by (apply Z.ltb_lt; by vm_compute).
  unfold str_ok. apply Z.ltb_lt. lia.
Qed.

Lemma fits_int64_printable r : fits_int64 r → printable r.
Proof. intros (? & ? & ?). split_and!; by apply int64_str_ok. Qed.

Lemma to_csv_rows rows :
  to_csv (make_frame (row_dict <$> rows))
  = if decide (Forall printable rows)
    then Some (match rows with
               | [] => [[]]
               | _ :: _ => (CStr <$> column_names) :: (csv_record <$> rows)
               end)
    else None.
Proof.
  destruct rows as [|r rows].
  - by rewrite decide_True by constructor.
  - apply to_csv_make_frame.
Qed.

(** The script prints when the log is there, its counts can be read and
    the numbers of its rows can be written; it dies otherwise. *)
Lemma main_closed prog logfile rest read_text :
  main (prog :: logfile :: rest) read_text =
  match read_text logfile with
  | None => Uncaught
  | Some log =>
      if decide (counts_readable log ∧ Forall printable (expected_rows log))
      then Printed (match expected_rows log with
                    | [] => [[]]
                    | _ :: _ => (CStr <$> column_names)
                                :: (csv_record <$> expected_rows log)
                    end)
      else Uncaught
  end.
Proof.
  unfold main. destruct (read_text logfile) as [log|]; [|done].
  unfold parse_cutadapt_adapters. rewrite parse_rows_closed.
  destruct (decide (counts_readable log)) as [Hr | Hr];
    cbn [mbind option_bind].
  - rewrite to_csv_rows.
    destruct (decide (Forall printable (expected_rows log))) as [Hp | Hp].
    + by rewrite decide_True by done.
    + rewrite decide_False; [done|]. by intros [_ ?].
  - rewrite decide_False; [done|]. by intros [? _].
Qed.

Lemma readable_Permutation (l l' : list (str * str * str * str)) :
  l ≡ₚ l' → Forall readable l ↔ Forall readable l'.
Proof. intros H. by rewrite H. Qed.

Lemma int_same_count l l' :
  Forall2 same_count l l' →
  Forall (λ g, is_Some (int (g.2))) l ↔ Forall (λ g, is_Some (int (g.2))) l'.
Proof.
  induction 1 as [|g g' l l' (_ & _ & Hn) _ IH]; [done|].
  by rewrite !Forall_cons, Hn, IH.
Qed.

(** ** Records and the anchors behind their header *)

Lemma occursb_suffix l p q : occursb l (p ++ q) = false → occursb l q = false.
Proof.
  intros H. destruct (occursb l q) eqn:E; [|done].
  by rewrite (occursb_skip l p q E) in H.
Qed.

(** A record begins before a text that lacks one of the two fields. *)
Lemma record_begins_before pre t g :
  occursb $"Sequence:" t = false ∨ occursb $"Trimmed:" t = false →
  g ∈ findall adapter_block_regex (pre ++ t) →
  ∃ p m post, pre ++ t = p ++ m ++ post ∧ adapter_section m g ∧
              (length p < length pre)%nat.
Proof.
  intros Ht (p & q & r & E & Hm)%elem_of_findall_from.
  apply adapter_match_inv in Hm as (m & -> & Hm).
  exists p, m, r. split_and!; [done..|].
  destruct (decide (length p < length pre)%nat) as [|Hge]; [done|].
  exfalso. apply (f_equal (drop (length pre))) in E.
  rewrite drop_app_length, drop_app_le in E by lia.
  destruct Ht as [Ht | Ht]; rewrite E in Ht.
  - by rewrite (adapter_section_sequence _ m r g Hm) in Ht.
  - by rewrite (adapter_section_trimmed _ m r g Hm) in Ht.
Qed.

(** * The claims *)

(** ** C1 *)

(** C1.  For every log with exactly one sample block, named RAT10, in which
    [findall] meets one First-read section and one Second-read section,
    both with the sequence AAAA, trimmed 100 and 50 times, [parse_rows]
    returns the two rows (RAT10, AAAA, 100, 50, 150) and
    (RAT10, TOTAL, 100, 50, 150), in this order. *)
Theorem scenario_same_adapter_on_both_reads log block n1 n2 g3 g3' :
  sample_blocks log = [block] →
  search sample_name_regex block = Some $"RAT10" →
  findall adapter_block_regex block =
    [($"First", n1, g3, $"100"); ($"Second", n2, g3', $"50")] →
  strip g3 = $"AAAA" → strip g3' = $"AAAA" →
  parse_rows log = Some [ Row $"RAT10" $"AAAA" 100 50 150;
                          Row $"RAT10" $"TOTAL" 100 50 150 ].
Proof.
  intros Hlog Hname Hfind Hg3 Hg3'.
  unfold parse_rows. rewrite Hlog. simpl.
  unfold process_block. rewrite Hname, Hfind. cbn [for_each].
  rewrite (accumulate_Some _ _ 100) by done. cbn [mbind option_bind].
  rewrite (accumulate_Some _ _ 50) by done.
  unfold seq_of. cbn [fst snd]. rewrite Hg3, Hg3'.
  vm_compute. reflexivity.
Qed.

Lemma scenario_same_adapter_on_both_reads_witness :
  sample_blocks log_scenario1 = [block_scenario1] ∧
  search sample_name_regex block_scenario1 = Some $"RAT10" ∧
  findall adapter_block_regex block_scenario1 =
    [($"First", $"1", $"AAAA", $"100"); ($"Second", $"2", $"AAAA", $"50")] ∧
  parse_rows log_scenario1 = Some [ Row $"RAT10" $"AAAA" 100 50 150;
                                    Row $"RAT10" $"TOTAL" 100 50 150 ].
Proof.
  split_and!; [vm_compute; reflexivity..|].
  apply (scenario_same_adapter_on_both_reads
           log_scenario1 block_scenario1 $"1" $"2" $"AAAA" $"AAAA");
    vm_compute; reflexivity.
Defined.

(** ** C2 *)

(** Against C2 as stated: the second header line holds no token, so the
    claim lets the block of RAT1 run to the end of the log.  The pattern
    ends the block at the next [Command line parameters:] whatever follows
    it, and the adapter section after it belongs to no block. *)
Lemma block_ends_at_header_without_token :
  claimed_blocks log_header_without_token = [log_header_without_token] ∧
  sample_blocks log_header_without_token
  = [$"Command line parameters: -a AAAA -o RAT1.fq in.fq
"] ∧
  sample_blocks log_header_without_token
  ≠ claimed_blocks log_header_without_token ∧
  parse_rows log_header_without_token = Some [].
Proof. by vm_compute. Qed.

(** The source speaks of lines that start with the header (lines 29-30),
    yet the pattern has no anchor for the start of a line, and under
    [re.DOTALL] the token may stand on a later line: here the block begins
    inside the first line and takes its token from the second. *)
Lemma block_begins_inside_a_line :
  sample_blocks $"cutadapt: Command line parameters: -a AAAA in.fq
Writing RAT4.fq
"
  = [$"Command line parameters: -a AAAA in.fq
Writing RAT4.fq"].
Proof. by vm_compute. Qed.

(** C2, amended.  For every log, the segmentation produces exactly the
    blocks of a scan of the log from left to right.  A block begins at the
    first place, behind the block before it, where the text
    [Command line parameters:] stands and [RAT] with a digit follows at
    some distance; the place need not be the start of a line, and the
    token need not stand on the same line.  The block is the header text,
    the text up to the first token, the token with all its digits, and
    the text up to, and without, the nearest place where
    [Command line parameters:] occurs again, whether a token follows there
    or not, or where the log ends, a newline that ends the log left out.
    The blocks are disjoint pieces of the log, in the order of the log,
    and no other list of blocks is such a scan. *)
Theorem blocks_are_pattern_matches_in_log_order log :
  Scanned log (sample_blocks log) ∧
  ∀ bs, Scanned log bs → bs = sample_blocks log.
Proof.
  split.
  - apply Scanned_sample_blocks.
  - intros bs Hbs. symmetry. by apply Scanned_unique.
Qed.

(** ** C3 *)

(** Against C3 as stated: on the empty log the script succeeds, but the
    header it prints has no column, so it is not the header of the five
    column names. *)
Lemma empty_log_prints_no_column_name :
  let run := main [$"parse_cutadapt_adapters.py"; $"cutadapt.log"]
                  (λ _, Some []) in
  run = Printed [[]] ∧ exit_status run = 0 ∧
  run ≠ Printed [CStr <$> column_names].
Proof. by vm_compute. Qed.

(** C3, amended.  For every log with no sample block, or with no adapter
    section in any of its blocks (the empty log is one), [parse_rows]
    returns no row, the script ends with status 0, and the CSV it prints
    is one header record and nothing else; that header holds no column
    name, for the frame takes its columns from the keys of the rows and
    there is no row. *)
Theorem csv_of_log_without_sections prog logfile rest read_text log :
  read_text logfile = Some log →
  Forall (λ b, findall adapter_block_regex b = []) (sample_blocks log) →
  parse_rows log = Some [] ∧
  main (prog :: logfile :: rest) read_text = Printed [[]] ∧
  exit_status (main (prog :: logfile :: rest) read_text) = 0.
Proof.
  intros Hread Hnone.
  assert (parse_rows log = Some []) as Hrows.
  { by apply for_each_no_section. }
  assert (main (prog :: logfile :: rest) read_text = Printed [[]]) as ->.
  { unfold main, parse_cutadapt_adapters. by rewrite Hread, Hrows. }
  done.
Qed.

Lemma csv_of_log_without_sections_witness :
  let read_text := λ _ : str, Some ([] : str) in
  read_text $"cutadapt.log" = Some [] ∧
  Forall (λ b, findall adapter_block_regex b = []) (sample_blocks []) ∧
  main [$"parse_cutadapt_adapters.py"; $"cutadapt.log"] read_text
  = Printed [[]].
Proof.
  intros read_text.
  assert (Forall (λ b, findall adapter_block_regex b = []) (sample_blocks []))
    as H by (change (sample_blocks []) with ([] : list str); constructor).
  split_and!; [reflexivity|exact H|].
  exact (proj1 (proj2 (csv_of_log_without_sections
           $"parse_cutadapt_adapters.py" $"cutadapt.log" [] read_text []
           eq_refl H))).
Defined.

(** With rows, whose numbers fit 64 bits, the header is the five column
    names, and there is one record per row. *)
Lemma csv_of_log_with_rows prog logfile rest read_text log r rows :
  read_text logfile = Some log → parse_rows log = Some (r :: rows) →
  Forall fits_int64 (r :: rows) →
  ∃ body, main (prog :: logfile :: rest) read_text
          = Printed ((CStr <$> column_names) :: body) ∧
          length body = length (r :: rows).
Proof.
  intros Hread Hrows Hfit. unfold main, parse_cutadapt_adapters.
  rewrite Hread, Hrows. cbn [mbind option_bind].
  rewrite to_csv_make_frame, decide_True
    by (eapply Forall_impl; [done|apply fits_int64_printable]).
  eexists. split; [done|]. by rewrite length_fmap.
Qed.

(** ** C4 *)

(** Against C4 as stated: the single block of this log names one sequence,
    so that N = 1, and yet no row comes out.  The count of its section has
    4301 digits, [int] raises on it (line 76), and the script ends with
    the exception. *)
Lemma long_count_yields_no_row :
  sample_blocks log_long_count = [block_long_count] ∧
  findall adapter_block_regex block_long_count
  = [($"First", $"1", $"AAAA", long_count)] ∧
  size (block_sequences block_long_count) = 1%nat ∧
  Z.of_nat (length long_count) = 4301 ∧
  int long_count = None ∧
  parse_rows log_long_count = None ∧
  main [$"parse_cutadapt_adapters.py"; $"cutadapt.log"]
       (λ _, Some log_long_count) = Uncaught.
Proof. by vm_compute. Qed.

(** C4, amended.  For every log with a single sample block in which every
    count has at most 4300 digits, let N be the number of distinct adapter
    sequences that the sections of the block name.  If N = 0, no row is
    returned.  If N >= 1, the rows are N per-adapter rows, one for each of
    these sequences, followed by exactly one TOTAL row, whose
    Trimmed (Read 1) and Trimmed (Read 2) are the sums of these columns
    over the N per-adapter rows. *)
Theorem single_block_rows_and_total log block :
  sample_blocks log = [block] →
  Forall readable (findall adapter_block_regex block) →
  let N := size (block_sequences block) in
  (N = 0%nat → parse_rows log = Some []) ∧
  ((1 ≤ N)%nat →
   ∃ adapters total,
     parse_rows log = Some (adapters ++ [total]) ∧
     length adapters = N ∧
     NoDup (adapter_sequence <$> adapters) ∧
     (∀ q, q ∈ adapter_sequence <$> adapters ↔ q ∈ block_sequences block) ∧
     adapter_sequence total = $"TOTAL" ∧
     trimmed_read1 total = column_sum trimmed_read1 adapters ∧
     trimmed_read2 total = column_sum trimmed_read2 adapters).
Proof.
  intros Hlog Hread N.
  destruct (parse_rows_tables log) as (tables & -> & Ht).
  { unfold counts_readable. rewrite Hlog. by constructor. }
  rewrite Hlog in Ht.
  apply Forall2_cons_inv_l in Ht as (table & tables' & Hb & Hnil & ->).
  apply Forall2_nil_inv_l in Hnil as ->. simpl.
  rewrite (right_id_L [] (++)).
  destruct Hb as (name & seqs & _ & _ & Htable & Hsorted & Hmem).
  assert (NoDup seqs) as Hnd.
  { clear -Hsorted. induction Hsorted as [|q seqs _ IH Hq]; constructor; [|done].
    intros Hin. rewrite Forall_forall in Hq. specialize (Hq q Hin).
    unfold str_lt in Hq.
    assert (str_compare q q = Eq) by by apply str_compare_eq. congruence. }
  assert (length seqs = N) as HN.
  { unfold N. rewrite <-(size_list_to_set (C:=gset str) seqs) by done.
    f_equal. apply set_eq. intros q. by rewrite elem_of_list_to_set. }
  destruct seqs as [|q seqs]; simpl in Htable.
  - subst table. split; [done|]. simpl in HN. lia.
  - destruct Htable as (adapters & -> & Hseq & Ha). split.
    { simpl in HN. lia. }
    intros _. eexists adapters, _. split_and!; try done.
    + by rewrite <-HN, <-Hseq, length_fmap.
    + by rewrite Hseq.
    + intros q'. by rewrite Hseq.
Qed.

Lemma single_block_rows_and_total_witness :
  let block := block_total_sequence in
  sample_blocks log_total_sequence = [block] ∧
  Forall readable (findall adapter_block_regex block) ∧
  ∃ adapters total,
    parse_rows log_total_sequence = Some (adapters ++ [total]) ∧
    length adapters = size (block_sequences block) ∧
    trimmed_read1 total = column_sum trimmed_read1 adapters ∧
    trimmed_read2 total = column_sum trimmed_read2 adapters.
Proof.
  intros block.
  assert (sample_blocks log_total_sequence = [block]) as H.
  { vm_compute. reflexivity. }
  assert (Forall readable (findall adapter_block_regex block)) as Hr.
  { apply (bool_decide_unpack _). vm_compute. exact I. }
  split_and!; [exact H|exact Hr|].
  destruct (single_block_rows_and_total log_total_sequence block H Hr)
    as [_ Hrows].
  assert (1 ≤ size (block_sequences block))%nat as H1 by (vm_compute; lia).
  destruct (Hrows H1) as (adapters & total & ? & ? & _ & _ & _ & ? & ?).
  exists adapters, total. split_and!; assumption.
Defined.

(** ** C5 *)

(** C5.  For every two texts A and B that are self-contained sample
    blocks, [parse_rows] of A followed by B is [parse_rows] of A followed
    by [parse_rows] of B: it returns the rows of A followed by the rows of
    B, the blocks in their order and no count of one in a row of the
    other, and it raises exactly when it raises on A or on B. *)
Theorem parse_rows_of_two_blocks A B :
  self_contained A → self_contained B →
  parse_rows (A ++ B)
  = (rows_a ← parse_rows A; rows_b ← parse_rows B; Some (rows_a ++ rows_b)).
Proof.
  intros (b & post & EA & Hpost & Hm) HB.
  destruct (self_contained_blocks A b post EA Hpost Hm) as [HA HAB].
  destruct (self_contained_header B HB) as [rest EB].
  specialize (HAB rest). rewrite <-EB in HAB. clear rest EB HB Hm.
  assert (process_block [] A = process_block [] b) as Ha.
  { rewrite EA. destruct Hpost as [-> | ->].
    - by rewrite (right_id_L [] (++)).
    - apply process_block_final_newline. }
  unfold parse_rows in *. rewrite HA, HAB, !for_each_cons, Ha.
  destruct (process_block [] b) as [rows_a|]; [|reflexivity].
  cbn [mbind option_bind for_each].
  rewrite for_each_process_block_prepend.
  by destruct (for_each process_block [] (sample_blocks B)).
Qed.

Lemma parse_rows_of_two_blocks_witness :
  let A := block_scenario1 ++ [newline] in
  let B := log_total_sequence in
  self_contained A ∧ self_contained B ∧
  is_Some (parse_rows A) ∧ is_Some (parse_rows B) ∧
  parse_rows (A ++ B)
  = (rows_a ← parse_rows A; rows_b ← parse_rows B; Some (rows_a ++ rows_b)).
Proof.
  intros A B.
  assert (self_contained A) as HA.
  { exists block_scenario1, [newline].
    split_and!; [reflexivity | by right | vm_compute; reflexivity]. }
  assert (self_contained B) as HB.
  { eexists _, [newline].
    split_and!; [|by right|vm_compute; reflexivity]. vm_compute. reflexivity. }
  split_and!; [exact HA | exact HB | | |exact (parse_rows_of_two_blocks A B HA HB)].
  - apply (bool_decide_unpack _). vm_compute. exact I.
  - apply (bool_decide_unpack _). vm_compute. exact I.
Defined.

(** ** C6 *)

(** C6.  For every log and the rows that [parse_rows] returns for it: the
    rows come block after block in the order of the blocks in the log.
    The rows of one block are its per-adapter rows in strictly increasing
    order of Adapter Sequence, followed by the TOTAL row as the last row;
    a block without sequence has no row.  Every row carries the sample
    name of its own block. *)
Theorem rows_sorted_within_blocks_in_log_order log rows :
  parse_rows log = Some rows →
  ∃ tables,
    rows = concat tables ∧
    Forall2
      (λ block table,
         table = [] ∨
         ∃ adapters total,
           table = adapters ++ [total] ∧
           StronglySorted str_lt (adapter_sequence <$> adapters) ∧
           adapter_sequence total = $"TOTAL" ∧
           Forall (λ r, search sample_name_regex block = Some (sample_name r))
                  table)
      (sample_blocks log) tables.
Proof.
  intros Hrows.
  destruct (parse_rows_tables log (parse_rows_Some log rows Hrows))
    as (tables & E & Ht).
  exists tables. split; [congruence|].
  eapply Forall2_impl; [done|]. clear.
  intros block table (name & seqs & Hname & _ & Htable & Hsorted & _).
  destruct seqs as [|q seqs]; simpl in Htable; [by left|right].
  destruct Htable as (adapters & -> & Hseq & Ha).
  eexists adapters, _. split_and!; [done| |done|].
  - by rewrite Hseq.
  - apply Forall_app. split.
    + eapply Forall_impl; [done|]. intros r [-> _]. done.
    + by repeat constructor.
Qed.

Lemma rows_sorted_within_blocks_in_log_order_witness :
  let rows := [ Row $"RAT7" $"AAAA" 5 0 5; Row $"RAT7" $"TOTAL" 12 0 12;
                Row $"RAT7" $"TOTAL" 17 0 17 ] in
  parse_rows log_total_sequence = Some rows ∧
  ∃ tables,
    rows = concat tables ∧
    Forall2
      (λ block table,
         table = [] ∨
         ∃ adapters total,
           table = adapters ++ [total] ∧
           StronglySorted str_lt (adapter_sequence <$> adapters) ∧
           adapter_sequence total = $"TOTAL" ∧
           Forall (λ r, search sample_name_regex block = Some (sample_name r))
                  table)
      (sample_blocks log_total_sequence) tables.
Proof.
  intros rows.
  assert (parse_rows log_total_sequence = Some rows) as H
    by (vm_compute; reflexivity).
  split; [exact H|].
  exact (rows_sorted_within_blocks_in_log_order log_total_sequence rows H).
Defined.

(** ** C7 *)

(** C7.  For every log, every row that [parse_rows] returns for it,
    per-adapter rows and TOTAL rows alike, has
    Total Trimmed = Trimmed (Read 1) + Trimmed (Read 2). *)
Theorem total_trimmed_is_sum_of_reads log rows :
  parse_rows log = Some rows →
  Forall (λ r, total_trimmed r = trimmed_read1 r + trimmed_read2 r) rows.
Proof.
  intros Hrows.
  destruct (parse_rows_tables log (parse_rows_Some log rows Hrows))
    as (tables & E & Ht).
  assert (rows = concat tables) as -> by congruence.
  clear Hrows E. apply Forall_concat.
  induction Ht as [|b table blocks tables Hb _ IH]; [constructor|].
  constructor; [|done].
  destruct Hb as (name & seqs & _ & _ & Htable & _).
  destruct seqs as [|q seqs]; simpl in Htable.
  - subst. constructor.
  - destruct Htable as (adapters & -> & _ & Ha).
    apply Forall_app. split.
    + eapply Forall_impl; [done|]. by intros r [_ ?].
    + by repeat constructor.
Qed.

Lemma total_trimmed_is_sum_of_reads_witness :
  let rows := [ Row $"RAT10" $"AAAA" 100 50 150;
                Row $"RAT10" $"TOTAL" 100 50 150 ] in
  parse_rows log_scenario1 = Some rows ∧
  Forall (λ r, total_trimmed r = trimmed_read1 r + trimmed_read2 r) rows.
Proof.
  intros rows.
  assert (parse_rows log_scenario1 = Some rows) as H
    by (vm_compute; reflexivity).
  split; [exact H|].
  exact (total_trimmed_is_sum_of_reads log_scenario1 rows H).
Defined.

(** ** C8 *)

(** Against C8 as stated: the section of the first read has its header and
    its [Trimmed: 5 times] line and no [Sequence:] field between them, and
    yet the match that starts at its header succeeds.  It runs on into the
    section of the second read and yields a record for the first read with
    the sequence and the count of the second. *)
Lemma section_without_sequence_borrows_the_next :
  let section1 := section_without_sequence in
  let rest := section_with_sequence in
  log_first_section_without_sequence
  = header_line_two_reads ++ section1 ++ rest ∧
  occursb $"Sequence:" section1 = false ∧
  match_at adapter_block_regex (section1 ++ rest)
  = Some (($"First", $"1", $"CCCC", $"7"), [newline]) ∧
  (findall adapter_block_regex <$> sample_blocks log_first_section_without_sequence)
  = [[($"First", $"1", $"CCCC", $"7")]] ∧
  parse_rows log_first_section_without_sequence
  = Some [ Row $"RAT3" $"CCCC" 7 0 7; Row $"RAT3" $"TOTAL" 7 0 7 ].
Proof. by vm_compute. Qed.

(** On such a block the loop body can raise, too: here the section that
    lends its fields has a count of 4301 digits. *)
Lemma section_without_sequence_can_raise :
  block_borrows_long_count
  = header_line_two_reads ++ section_without_sequence ++ section_long_count ∧
  findall adapter_block_regex block_borrows_long_count
  = [($"First", $"1", $"CCCC", long_count)] ∧
  process_block [] block_borrows_long_count = None.
Proof. by vm_compute. Qed.

(** C8, amended.  For every block: a record comes only from a piece of the
    block that holds the three anchors in order, the section header, then
    [Sequence: ...;], then [Trimmed: <digits> times], where the last two
    may lie beyond the next section header.  A section header behind
    which, up to the end of the block, [Sequence:] does not occur any
    more, or [Trimmed:] does not, yields no record: every record of the
    block begins before it.  A block in which [Sequence:] does not occur
    at all yields no record and no row.  The loop body does not raise
    unless a count has more than 4300 digits. *)
Theorem records_need_the_three_anchors block :
  (∀ g, g ∈ findall adapter_block_regex block →
        ∃ pre m post, block = pre ++ m ++ post ∧ adapter_section m g) ∧
  (∀ pre t,
     block = pre ++ t →
     occursb $"Sequence:" t = false ∨ occursb $"Trimmed:" t = false →
     ∀ g, g ∈ findall adapter_block_regex block →
          ∃ p m post, block = p ++ m ++ post ∧ adapter_section m g ∧
                      (length p < length pre)%nat) ∧
  (occursb $"Sequence:" block = false →
   findall adapter_block_regex block = [] ∧
   ∀ rows, process_block rows block = Some rows) ∧
  (Forall readable (findall adapter_block_regex block) →
   ∀ rows, is_Some (process_block rows block)).
Proof.
  split_and!.
  - apply elem_of_findall_adapter.
  - intros pre t -> Ht g Hg. by apply record_begins_before.
  - intros Hno.
    assert (findall adapter_block_regex block = []) as Hnil.
    { destruct (findall adapter_block_regex block) as [|g l] eqn:E; [done|].
      destruct (elem_of_findall_adapter block g) as (pre & m & post & -> & Hm).
      { rewrite E. left. }
      by rewrite (adapter_section_sequence pre m post g Hm) in Hno. }
    split; [done|]. intros rows. by apply process_block_no_section.
  - intros Hr rows. by apply process_block_total.
Qed.

Lemma records_need_the_three_anchors_witness :
  let block := block_incomplete_last in
  let pre := header_line_rat5 ++ section_first_aaaa in
  let t := section_second_without_sequence in
  block = pre ++ t ∧
  occursb $"Sequence:" t = false ∧
  findall adapter_block_regex block = [($"First", $"1", $"AAAA", $"5")] ∧
  (∀ g, g ∈ findall adapter_block_regex block →
        ∃ p m post, block = p ++ m ++ post ∧ adapter_section m g ∧
                    (length p < length pre)%nat) ∧
  process_block [] block
  = Some [ Row $"RAT5" $"AAAA" 5 0 5; Row $"RAT5" $"TOTAL" 5 0 5 ].
Proof.
  intros block pre t.
  assert (block = pre ++ t) as E.
  { unfold block, block_incomplete_last, pre, t. by rewrite <-(assoc_L (++)). }
  assert (occursb $"Sequence:" t = false) as H by (vm_compute; reflexivity).
  split_and!; [exact E|exact H|vm_compute; reflexivity| |vm_compute; reflexivity].
  exact (proj1 (proj2 (records_need_the_three_anchors block)) pre t E
           (or_introl H)).
Defined.

(** ** C9 *)

(** C9.  For every log, every block that the segmentation produces holds a
    token [RAT] followed by digits, so the search for the sample name in
    the block succeeds: the branch that skips a block without sample name
    is never taken. *)
Theorem sample_name_found_in_every_block log block :
  block ∈ sample_blocks log →
  (∃ p ds q, block = p ++ $"RAT" ++ ds ++ q ∧ digits ds) ∧
  ∃ name, search sample_name_regex block = Some name ∧ is_sample_name name.
Proof.
  intros (pre & post & x & ds & y & _ & Hb)%elem_of_sample_blocks. split.
  - destruct Hb as [-> _ Hds _ _ _].
    exists (header_lit ++ x), ds, y. by rewrite <-(assoc_L (++)).
  - by eapply is_block_sample_name.
Qed.

Lemma sample_name_found_in_every_block_witness :
  block_scenario1 ∈ sample_blocks log_scenario1 ∧
  ∃ name, search sample_name_regex block_scenario1 = Some name ∧
          is_sample_name name.
Proof.
  assert (block_scenario1 ∈ sample_blocks log_scenario1) as H.
  { vm_compute. left. }
  split; [exact H|].
  exact (proj2 (sample_name_found_in_every_block
                  log_scenario1 block_scenario1 H)).
Defined.

(** ** C10 *)

(** C10.  There is a log with a section whose extracted sequence is the
    string TOTAL for which the rows of the block hold two rows with the
    Adapter Sequence TOTAL: the per-adapter row and the synthetic one.  The
    Adapter Sequence alone does not tell them apart. *)
Theorem total_row_not_told_apart_by_sequence :
  ∃ log per_adapter synthetic,
    $"TOTAL" ∈ seq_of <$> concat (findall adapter_block_regex <$> sample_blocks log) ∧
    parse_rows log = Some [ Row $"RAT7" $"AAAA" 5 0 5; per_adapter; synthetic ] ∧
    adapter_sequence per_adapter = $"TOTAL" ∧
    adapter_sequence synthetic = $"TOTAL" ∧
    per_adapter = Row $"RAT7" $"TOTAL" 12 0 12 ∧
    synthetic = Row $"RAT7" $"TOTAL" 17 0 17.
Proof.
  exists log_total_sequence,
         (Row $"RAT7" $"TOTAL" 12 0 12), (Row $"RAT7" $"TOTAL" 17 0 17).
  split_and!; [|vm_compute; reflexivity|reflexivity..].
  vm_compute. right. left.
Qed.

(** * Further properties *)

(** ** The rows, in closed form *)

(** X1.  For every log in which every count of every block has at most
    4300 digits, [parse_rows] returns, and its rows are, block by block:
    for each distinct stripped sequence of the block's records, in
    increasing order, one row whose Trimmed (Read 1) is the sum of the
    counts of the records with this sequence and the read [First], and
    whose Trimmed (Read 2) is that sum for the read [Second]; then, if
    there is any record, the TOTAL row with these sums over all records of
    the block.  For every other log [parse_rows] raises. *)
Theorem rows_are_the_sums_of_the_records log :
  parse_rows log
  = if decide (counts_readable log) then Some (expected_rows log) else None.
Proof. apply parse_rows_closed. Qed.

(** X2.  The rows of a block do not depend on the order of its adapter
    sections: two blocks with the same sample name whose records are the
    same up to their order give the same rows. *)
Theorem rows_do_not_depend_on_the_order_of_records rows block block' :
  search sample_name_regex block = search sample_name_regex block' →
  findall adapter_block_regex block ≡ₚ findall adapter_block_regex block' →
  process_block rows block = process_block rows block'.
Proof.
  intros Hname Hperm. rewrite !process_block_closed, <-Hname.
  destruct (search sample_name_regex block) as [name|]; [|done].
  rewrite (table_of_Permutation name _ _ Hperm).
  destruct (decide (Forall readable (findall adapter_block_regex block)))
    as [Hr | Hr].
  - by rewrite decide_True by by rewrite <-Hperm.
  - rewrite decide_False; [done|]. by rewrite <-Hperm.
Qed.

Lemma rows_do_not_depend_on_the_order_of_records_witness :
  findall adapter_block_regex block_first_then_second
  = [($"First", $"1", $"AAAA", $"5"); ($"Second", $"2", $"CCCC", $"7")] ∧
  findall adapter_block_regex block_second_then_first
  = [($"Second", $"2", $"CCCC", $"7"); ($"First", $"1", $"AAAA", $"5")] ∧
  process_block [] block_first_then_second
  = process_block [] block_second_then_first.
Proof.
  assert (findall adapter_block_regex block_first_then_second
          = [($"First", $"1", $"AAAA", $"5"); ($"Second", $"2", $"CCCC", $"7")])
    as H1 by (vm_compute; reflexivity).
  assert (findall adapter_block_regex block_second_then_first
          = [($"Second", $"2", $"CCCC", $"7"); ($"First", $"1", $"AAAA", $"5")])
    as H2 by (vm_compute; reflexivity).
  split_and!; [exact H1|exact H2|].
  apply (rows_do_not_depend_on_the_order_of_records
           [] block_first_then_second block_second_then_first).
  - vm_compute. reflexivity.
  - rewrite H1, H2. apply perm_swap.
Defined.

(** X3.  For every log, no row that [parse_rows] returns holds a negative
    number: the three counts of every row, per-adapter and TOTAL alike,
    are at least 0. *)
Theorem counts_are_never_negative log rows :
  parse_rows log = Some rows →
  Forall (λ r, 0 ≤ trimmed_read1 r ∧ 0 ≤ trimmed_read2 r ∧
               0 ≤ total_trimmed r) rows.
Proof.
  rewrite parse_rows_closed.
  destruct (decide (counts_readable log)) as [_ | _]; [|done]. intros [= <-].
  unfold expected_rows. apply Forall_concat, Forall_fmap, Forall_forall.
  intros block _. unfold table_of_block. simpl.
  destruct (search sample_name_regex block) as [name|]; [|constructor].
  unfold table_of.
  assert (∀ label l,
            let r := row_of_records name label l in
            0 ≤ trimmed_read1 r ∧ 0 ≤ trimmed_read2 r ∧ 0 ≤ total_trimmed r)
    as Hrow.
  { intros label l. unfold row_of_records.
    cbn [trimmed_read1 trimmed_read2 total_trimmed].
    pose proof (trimmed_nonneg $"First" l).
    pose proof (trimmed_nonneg $"Second" l). lia. }
  destruct (distinct_sequences _) as [|q seqs]; [constructor|].
  apply Forall_app. split.
  - apply Forall_fmap, Forall_forall. intros q' _. apply Hrow.
  - repeat constructor; apply Hrow.
Qed.

Lemma counts_are_never_negative_witness :
  let rows := [ Row $"RAT10" $"AAAA" 100 50 150;
                Row $"RAT10" $"TOTAL" 100 50 150 ] in
  parse_rows log_scenario1 = Some rows ∧
  Forall (λ r, 0 ≤ trimmed_read1 r ∧ 0 ≤ trimmed_read2 r ∧
               0 ≤ total_trimmed r) rows.
Proof.
  intros rows.
  assert (parse_rows log_scenario1 = Some rows) as H
    by (vm_compute; reflexivity).
  split; [exact H|].
  exact (counts_are_never_negative log_scenario1 rows H).
Defined.

(** ** The sample name *)

(** X4.  For every log and every block of its segmentation: the block is
    the header text, a text [x], the token [RAT] with digits [ds], and a
    text [y] that does not begin with a digit, where no token [RAT<digit>]
    begins in [x]; and the sample name found in the block is [RAT ds].  So
    the name is the first token after the header, with all its digits:
    the very token that made the text a block. *)
Theorem sample_name_is_the_first_token_of_the_block log :
  Forall (λ block,
            ∃ x ds y,
              block = header_lit ++ x ++ $"RAT" ++ ds ++ y ∧
              digits ds ∧ no_digit_ahead y ∧
              (∀ x1 x2, x = x1 ++ x2 → x2 ≠ [] →
                        ¬ token_at (x2 ++ $"RAT" ++ ds ++ y)) ∧
              search sample_name_regex block = Some ($"RAT" ++ ds))
         (sample_blocks log).
Proof.
  apply Forall_forall. intros block Hb.
  apply elem_of_sample_blocks in Hb as (pre & post & x & ds & y & _ & Hb).
  destruct (is_block_search _ _ _ _ _ Hb) as (Hy & Hx & Hs).
  exists x, ds, y. split_and!; [apply Hb|apply Hb|done..].
Qed.

(** ** The adapter sequences *)

(** X5.  For every log, the Adapter Sequence of every row that
    [parse_rows] returns holds no semicolon, and neither begins nor ends
    with a blank character. *)
Theorem adapter_sequences_are_stripped log rows :
  parse_rows log = Some rows →
  Forall (λ r, all not_semicolon (adapter_sequence r) ∧
               no_blank_at_ends (adapter_sequence r)) rows.
Proof.
  rewrite parse_rows_closed.
  destruct (decide (counts_readable log)) as [_ | _]; [|done]. intros [= <-].
  unfold expected_rows. apply Forall_concat, Forall_fmap, Forall_forall.
  intros block _. unfold table_of_block. simpl.
  destruct (search sample_name_regex block) as [name|]; [|constructor].
  unfold table_of.
  pose proof (λ q, proj1 (elem_of_sorted
    (remove_dups (seq_of <$> findall adapter_block_regex block)) q)) as Hmem.
  fold (distinct_sequences (findall adapter_block_regex block)) in Hmem.
  destruct (distinct_sequences _) as [|q seqs]; [constructor|].
  apply Forall_app. split.
  - apply Forall_fmap, Forall_forall. intros q' Hq'. simpl.
    apply Hmem, elem_of_remove_dups, list_elem_of_fmap in Hq' as (g & -> & Hg).
    by apply (findall_adapter_sequence block).
  - apply Forall_singleton. cbn [adapter_sequence row_of_records].
    split; [|split].
    + apply (bool_decide_unpack _). vm_compute. exact I.
    + intros c Hc. vm_compute in Hc. by injection Hc as <-.
    + intros c Hc. vm_compute in Hc. by injection Hc as <-.
Qed.

Lemma adapter_sequences_are_stripped_witness :
  let rows := [ Row $"RAT5" $"AAAA" 5 0 5; Row $"RAT5" $"TOTAL" 5 0 5 ] in
  parse_rows block_padded_record = Some rows ∧
  Forall (λ r, all not_semicolon (adapter_sequence r) ∧
               no_blank_at_ends (adapter_sequence r)) rows.
Proof.
  intros rows.
  assert (parse_rows block_padded_record = Some rows) as H
    by (vm_compute; reflexivity).
  split; [exact H|].
  exact (adapter_sequences_are_stripped block_padded_record rows H).
Defined.

(** ** The command line *)

(** X6.  For every argument vector and every file system: the script ends
    with status 0 when it is given a log file, as its first argument after
    the program name, that file can be read, every count in every block
    of the log has at most 4300 digits, and every number of the rows fits
    64 bits; further arguments are ignored.  It ends with status 1 when
    no log file is given, when the file cannot be read, when a count in a
    block has more than 4300 digits, and when a number of the rows has
    more than 4300 digits.  The status is 0 or 1. *)
Theorem script_succeeds_when_counts_are_read_and_written argv read_text :
  (∀ prog logfile rest log,
     argv = prog :: logfile :: rest → read_text logfile = Some log →
     counts_readable log → Forall fits_int64 (expected_rows log) →
     exit_status (main argv read_text) = 0) ∧
  (exit_status (main argv read_text) = 0 →
   ∃ prog logfile rest log,
     argv = prog :: logfile :: rest ∧ read_text logfile = Some log ∧
     counts_readable log ∧ Forall printable (expected_rows log)) ∧
  (exit_status (main argv read_text) = 0 ∨
   exit_status (main argv read_text) = 1).
Proof.
  split_and!; [| |by destruct (main argv read_text); [right|right|left]].
  - intros prog logfile rest log -> Hread Hr Hfit.
    rewrite main_closed, Hread, decide_True; [done|]. split; [done|].
    eapply Forall_impl; [done|apply fits_int64_printable].
  - destruct argv as [|prog [|logfile rest]]; [done..|].
    rewrite main_closed. destruct (read_text logfile) as [log|] eqn:E; [|done].
    destruct (decide _) as [[Hr Hp] | Hn]; [|done].
    intros _. by exists prog, logfile, rest, log.
Qed.

Lemma script_succeeds_when_counts_are_read_and_written_witness :
  let argv := [$"parse_cutadapt_adapters.py"; $"cutadapt.log"] in
  let read_text := λ _ : str, Some log_scenario1 in
  counts_readable log_scenario1 ∧
  Forall fits_int64 (expected_rows log_scenario1) ∧
  exit_status (main argv read_text) = 0 ∧
  exit_status (main argv (λ _, Some log_long_count)) = 1.
Proof.
  intros argv read_text.
  assert (counts_readable log_scenario1) as Hr.
  { apply (bool_decide_unpack _). vm_compute. exact I. }
  assert (Forall fits_int64 (expected_rows log_scenario1)) as Hf.
  { apply (bool_decide_unpack _). vm_compute. exact I. }
  split_and!; [exact Hr|exact Hf| |vm_compute; reflexivity].
  exact (proj1 (script_succeeds_when_counts_are_read_and_written
                  argv read_text) _ _ _ log_scenario1 eq_refl eq_refl Hr Hf).
Defined.

(** X7.  When the log gives at least one row, and every number of the rows
    fits 64 bits, the script prints the header record with the five column
    names and then one record for each row, in the order of the rows; the
    record of a row holds its five values in the order of the columns. *)
Theorem csv_holds_one_record_for_each_row prog logfile rest read_text log r rows :
  read_text logfile = Some log → parse_rows log = Some (r :: rows) →
  Forall fits_int64 (r :: rows) →
  main (prog :: logfile :: rest) read_text
  = Printed ((CStr <$> column_names) :: (csv_record <$> r :: rows)).
Proof.
  intros Hread Hrows Hfit. unfold main, parse_cutadapt_adapters.
  rewrite Hread, Hrows. cbn [mbind option_bind].
  rewrite to_csv_make_frame, decide_True; [done|].
  eapply Forall_impl; [done|apply fits_int64_printable].
Qed.

Lemma csv_holds_one_record_for_each_row_witness :
  let read_text := λ _ : str, Some log_scenario1 in
  let rows := [ Row $"RAT10" $"AAAA" 100 50 150;
                Row $"RAT10" $"TOTAL" 100 50 150 ] in
  parse_rows log_scenario1 = Some rows ∧
  Forall fits_int64 rows ∧
  main [$"parse_cutadapt_adapters.py"; $"cutadapt.log"] read_text
  = Printed [ CStr <$> column_names;
              [CStr $"RAT10"; CStr $"AAAA"; CInt 100; CInt 50; CInt 150];
              [CStr $"RAT10"; CStr $"TOTAL"; CInt 100; CInt 50; CInt 150] ].
Proof.
  intros read_text rows.
  assert (parse_rows log_scenario1 = Some rows) as H
    by (vm_compute; reflexivity).
  assert (Forall fits_int64 rows) as Hf.
  { apply (bool_decide_unpack _). vm_compute. exact I. }
  split_and!; [exact H|exact Hf|].
  exact (csv_holds_one_record_for_each_row
           $"parse_cutadapt_adapters.py" $"cutadapt.log" [] read_text
           log_scenario1 _ _ eq_refl H Hf).
Defined.

(** ** A newline at the end of the log *)

(** X8.  For every log, a newline put behind the log changes nothing in
    the result: the rows are the same, whether the file ends with a
    newline more or not. *)
Theorem final_newline_changes_no_row log :
  parse_rows (log ++ [newline]) = parse_rows log.
Proof.
  unfold parse_rows, sample_blocks, findall.
  apply for_each_process_block_newline, sample_blocks_final_newline.
Qed.

(** ** Logs without block, and the text before the first header *)

(** X9.  For every log, the segmentation yields no block exactly when
    nowhere in the log the text [Command line parameters:] is followed, at
    any distance, by [RAT] and a digit. *)
Theorem no_block_iff_no_header_with_token log :
  sample_blocks log = [] ↔ ¬ header_then_token log.
Proof.
  split.
  - intros Hnil (p & q & -> & Hq).
    apply (findall_from_nil_inv _ p) in Hnil.
    apply sample_split_is_Some in Hq as [v Hv]. congruence.
  - intros Hno. destruct (sample_blocks log) as [|b bs] eqn:E; [done|].
    destruct Hno.
    destruct (elem_of_sample_blocks log b)
      as (pre & post & x & ds & y & -> & Hb); [rewrite E; left|].
    exists pre, (b ++ post). split; [done|].
    apply sample_split_is_Some. exists (b, post).
    apply sample_split_match. split; [done|]. by exists x, ds, y.
Qed.

(** X10.  For every text [pre] in which [Command line parameters:] does
    not occur, the log [pre] followed by a text that begins with
    [Command line parameters:] has the blocks and the rows of that text
    alone: what stands before the first header is ignored. *)
Theorem text_before_the_first_header_is_ignored pre rest :
  occursb header_lit pre = false →
  sample_blocks (pre ++ header_lit ++ rest) = sample_blocks (header_lit ++ rest) ∧
  parse_rows (pre ++ header_lit ++ rest) = parse_rows (header_lit ++ rest).
Proof.
  intros Hpre.
  assert (sample_blocks (pre ++ header_lit ++ rest)
          = sample_blocks (header_lit ++ rest)) as H.
  { apply findall_from_gap. intros p1 p2 -> Hp2.
    apply eq_None_not_Some. intros Hm%sample_split_header_at.
    apply header_no_overlap in Hm; [|done].
    apply occursb_false in Hpre. rewrite Hpre in Hm. by destruct Hm. }
  split; [done|]. unfold parse_rows. by rewrite H.
Qed.

Lemma text_before_the_first_header_is_ignored_witness :
  let pre := $"This is cutadapt 4.4 with Python 3.10.12
" in
  occursb header_lit pre = false ∧
  parse_rows log_scenario1 = parse_rows (block_scenario1 ++ [newline]).
Proof.
  intros pre.
  assert (occursb header_lit pre = false) as H by (vm_compute; reflexivity).
  split; [exact H|].
  exact (proj2 (text_before_the_first_header_is_ignored pre
    $" -a AAAA -A AAAA -o RAT10_R1.fq -p RAT10_R2.fq in_R1.fq in_R2.fq
Processing paired-end reads on 8 cores ...
Finished in 12.3 s (24 us/read; 2.5 M reads/minute).

=== Summary ===

Total read pairs processed:            500,000

=== First read: Adapter 1 ===

Sequence: AAAA; Type: regular 3'; Length: 4; Trimmed: 100 times

=== Second read: Adapter 2 ===

Sequence: AAAA; Type: regular 3'; Length: 4; Trimmed: 50 times
" H)).
Defined.

(** ** Adapter sections *)

(** X11.  A section in the form that Cutadapt writes is recorded as it
    stands.  Let the text be a section header with the read [g1], First or
    Second, and the number [g2]; then a text [mid1] without [Sequence:];
    the field [Sequence:] with a sequence [g3] that holds no semicolon and
    does not begin with a blank, and its semicolon; then a text [mid2]
    without [Trimmed:]; and the field [Trimmed: g4 times] with the digits
    [g4].  Then the pattern matches this text, from its first to its last
    character, with the groups ([g1], [g2], [g3], [g4]); and when no
    section header begins in the text [pre] before it, [findall] yields
    this record first and goes on behind the section. *)
Theorem plain_section_is_recorded
    w1 g1 w2 w3 w4 g2 w5 mid1 w6 g3 mid2 w7 g4 w8 pre rest :
  g1 = $"First" ∨ g1 = $"Second" →
  blank w1 → blank w2 → blank w3 → blank w4 → blank w5 →
  all is_space w6 → blank w7 → blank w8 →
  digits g2 → digits g4 →
  g3 ≠ [] → all not_semicolon g3 → stops is_space g3 →
  occursb $"Sequence:" mid1 = false → occursb $"Trimmed:" mid2 = false →
  let section := section_text w1 g1 w2 w3 w4 g2 w5 mid1 w6 g3 mid2 w7 g4 w8 in
  section_header_in pre (section ++ rest) = false →
  match_at adapter_block_regex (section ++ rest) = Some ((g1, g2, g3, g4), rest) ∧
  findall adapter_block_regex (pre ++ section ++ rest)
  = (g1, g2, g3, g4) :: findall adapter_block_regex rest.
Proof.
  intros Hg1 Hw1 Hw2 Hw3 Hw4 Hw5 Hw6 Hw7 Hw8 Hg2 Hg4 Hne Hg3 Hs Hmid1 Hmid2
    section Hpre.
  assert (match_at adapter_block_regex (section ++ rest)
          = Some ((g1, g2, g3, g4), rest)) as Hm by by apply section_text_match.
  split; [exact Hm|]. unfold findall.
  rewrite findall_from_gap.
  - apply findall_from_match; [|exact Hm]. unfold section, section_text.
    intros H. apply (f_equal length) in H. rewrite length_app in H.
    simpl in H. lia.
  - intros p u E Hu. apply eq_None_not_Some.
    intros H%adapter_match_header.
    by rewrite (section_header_in_false pre _ p u Hpre E Hu) in H.
Qed.

Lemma plain_section_is_recorded_witness :
  let blank1 := $" " in
  let section :=
    section_text blank1 $"First" blank1 blank1 blank1 $"1" blank1 $"

" blank1 $"AAAA" $" Type: regular 3'; Length: 4; " blank1 $"100" blank1 in
  section = plain_section_first ∧
  section_header_in block_start_with_summary (section ++ [newline]) = false ∧
  findall adapter_block_regex
    (block_start_with_summary ++ plain_section_first ++ [newline])
  = [($"First", $"1", $"AAAA", $"100")].
Proof.
  intros blank1 section.
  assert (blank blank1) as Hb by (split; [done|repeat constructor]).
  assert (section_header_in block_start_with_summary (section ++ [newline])
          = false) as Hpre by (vm_compute; reflexivity).
  split_and!; [reflexivity|exact Hpre|].
  refine (proj2 (plain_section_is_recorded
    blank1 $"First" blank1 blank1 blank1 $"1" blank1 $"

" blank1 $"AAAA" $" Type: regular 3'; Length: 4; " blank1 $"100" blank1
    block_start_with_summary [newline]
    _ Hb Hb Hb Hb Hb _ Hb Hb _ _ _ _ _ _ _ Hpre)).
  - by left.
  - repeat constructor.
  - split; [done|repeat constructor].
  - split; [done|repeat constructor].
  - done.
  - repeat constructor.
  - reflexivity.
  - reflexivity.
  - reflexivity.
Defined.

(** ** Records that count the same *)

(** X12.  The rows of a block depend on its records only through the
    read, the stripped sequence and what [int] makes of the count: two
    blocks with the same sample name whose records agree in these, one by
    one, give the same rows, or raise both.  The adapter number and
    blanks around the sequence do not matter, nor do zeros ahead of the
    count as long as the count has at most 4300 characters. *)
Theorem rows_depend_on_read_sequence_and_count rows block block' :
  search sample_name_regex block = search sample_name_regex block' →
  Forall2 same_count (findall adapter_block_regex block)
                     (findall adapter_block_regex block') →
  process_block rows block = process_block rows block'.
Proof.
  intros Hname Hsame. rewrite !process_block_closed, <-Hname.
  destruct (search sample_name_regex block) as [name|]; [|done].
  rewrite (table_of_same_count name _ _ Hsame).
  pose proof (int_same_count _ _ Hsame) as Hint.
  rewrite !findall_adapter_readable in Hint.
  destruct (decide (Forall readable (findall adapter_block_regex block)))
    as [Hr | Hr].
  - by rewrite decide_True by by apply Hint.
  - rewrite decide_False; [done|]. by rewrite <-Hint.
Qed.

Lemma rows_depend_on_read_sequence_and_count_witness :
  findall adapter_block_regex block_plain_record
  = [($"First", $"1", $"AAAA", $"5")] ∧
  findall adapter_block_regex block_padded_record
  = [($"First", $"12", $"AAAA ", $"005")] ∧
  process_block [] block_plain_record = process_block [] block_padded_record ∧
  process_block [] block_plain_record
  = Some [ Row $"RAT5" $"AAAA" 5 0 5; Row $"RAT5" $"TOTAL" 5 0 5 ].
Proof.
  assert (findall adapter_block_regex block_plain_record
          = [($"First", $"1", $"AAAA", $"5")]) as H1
    by (vm_compute; reflexivity).
  assert (findall adapter_block_regex block_padded_record
          = [($"First", $"12", $"AAAA ", $"005")]) as H2
    by (vm_compute; reflexivity).
  split_and!; [exact H1|exact H2| |vm_compute; reflexivity].
  apply (rows_depend_on_read_sequence_and_count
           [] block_plain_record block_padded_record).
  - vm_compute. reflexivity.
  - rewrite H1, H2. repeat constructor.
Defined.

(** ** The scan for blocks *)

(** X13.  For every log, the blocks are those of a scan from left to
    right, and no others: a block begins at the first place where the
    header text stands with [RAT] and a digit somewhere behind it, it is
    the text that the pattern matches there, and the scan goes on behind
    the block.  So no place where a block can begin is passed over, unless
    it lies inside the block before it. *)
Theorem blocks_are_those_of_the_scan log bs :
  sample_blocks log = bs ↔ Scanned log bs.
Proof.
  split.
  - intros <-. apply Scanned_sample_blocks.
  - apply Scanned_unique.
Qed.
